(** * ot/utils.py: the process-pool map [parmap], [cost_normalization],
    [clean_zeros], [check_params], [deprecated] and [BaseEstimator]

    The pool of [parmap] is embedded as a transition system: one
    coordinator (the body of [parmap]) and [nprocs] worker processes (the
    body of [fun]) which communicate through the two queues [q_in] and
    [q_out] only.  Every queue operation of the source is one transition,
    a blocking operation is a transition that is not enabled, and the
    scheduler is the nondeterministic choice of the next process to move.
    The worker processes are forked, so [f] is inherited; the items and
    the results travel through [multiprocessing.Queue], which pickles them
    and drops what [pickle] refuses.

    The functions on arrays work on a heap of arrays or on lists, with the
    operations of numpy on entries as parameters.  Function objects,
    classes and estimators are records; estimators live in a heap, and
    the methods that call themselves on other estimators take the number
    of frames left on the interpreter's stack. *)

From Stdlib Require Import ZArith Lia.
From stdpp Require Import base tactics option list relations sorting gmap strings.

Set Default Proof Using "Type".

(** ** Python values *)

(** A Python object as far as [parmap] can tell objects apart: [None], or
    anything else. *)
Inductive py (A : Type) : Type :=
  | PyNone
  | PyObj (a : A).
Arguments PyNone {A}.
Arguments PyObj {A} a.

(** What a [multiprocessing.Queue] carries is pickled by the feeder thread
    of the queue: [can_pickle v] tells whether [pickle.dumps(v)] returns
    for the objects of a type. *)
Class Pickle (T : Type) := can_pickle : T → bool.

(** [None] can be pickled, and so can any [int]. *)
#[global] Instance py_pickle {A} `{!Pickle A} : Pickle (py A) :=
  λ x, match x with
       | PyNone => true
       | PyObj a => can_pickle a
       end.

#[global] Instance Z_pickle : Pickle Z := λ _, true.

(** A value that is an [int] or a function object made by [lambda] or
    defined inside another function, which [pickle] refuses. *)
Inductive pyval : Type :=
  | VInt (z : Z)
  | VFun.

#[global] Instance pyval_pickle : Pickle pyval :=
  λ v, match v with
       | VInt _ => true
       | VFun => false
       end.

(** [enumerate(X)] *)
Definition enumerate {A} (l : list A) : list (nat * A) :=
  zip (seq 0 (length l)) l.

(** [range(n)] runs [n] times, and not at all for [n <= 0]. *)
Definition range_len (n : Z) : nat := Z.to_nat n.

Module ParMap.

Section pool.
Context {A B : Type} `{!Pickle A, !Pickle B}.

(** The mapped function; [None] stands for a call that raises. *)
Variable f : py A → option B.
(** [<] on results: [sorted] compares the tuples [(i, f(x))], and Python
    compares tuples lexicographically. *)
Variable lt_val : B → B → bool.
Variable X : list (py A).
Variable nprocs : Z.

(** What travels on [q_in]: the tuple [(i, x)], with [i] an [int] or
    [None]. *)
Definition item : Type := option nat * py A.

(** [(None, None)] *)
Definition sentinel : item := (None, PyNone).

Definition work (ix : nat * py A) : item := (Some ix.1, ix.2).

(** A worker process: created, blocked in [q_in.get()], holding an item
    between [get] and [put], returned from [fun], or killed by an
    exception of [f] while holding [(i, x)]. *)
Inductive wstate : Type :=
  | WNew
  | WIdle
  | WBusy (i : nat) (x : py A)
  | WDone
  | WDead (i : nat) (x : py A).

(** [p.join()] returns once the process has exited, however it did. *)
Definition exited (w : wstate) : bool :=
  match w with
  | WDone | WDead _ _ => true
  | _ => false
  end.

(** The program point of the coordinator, one constructor per loop of
    [parmap], with the loop's remaining work and the live locals. *)
Inductive cstate : Type :=
  | CStart (k : nat)
      (* for p in proc: p.start(), at proc[k] *)
  | CFeed (todo : list (nat * py A)) (sent : nat)
      (* sent = [q_in.put((i, x)) for i, x in enumerate(X)] *)
  | CStop (k : nat) (sent : nat)
      (* [q_in.put((None, None)) for _ in range(nprocs)], k to go *)
  | CRecv (k : nat) (res : list (nat * B))
      (* res = [q_out.get() for _ in range(len(sent))], k to go *)
  | CJoin (k : nat) (res : list (nat * B))
      (* [p.join() for p in proc], at proc[k] *)
  | CRet (res : list (nat * B)).
      (* return [x for i, x in sorted(res)] *)

(** Ghost history of the queue and process operations performed so far,
    latest first.  No transition reads it. *)
Inductive event : Type :=
  | EvStart (k : nat)
  | EvPut (it : item)
  | EvGet (k : nat) (it : item)
  | EvOut (k : nat) (r : nat * B)
  | EvRaise (k : nat) (i : nat)
  | EvRecv (r : nat * B)
  | EvJoin (k : nat).

(** [q_in] holds the items that [get] can return, oldest first.  [q_out]
    holds what the workers have handed to [q_out.put] and the coordinator
    has not received, oldest first: [put] only appends to the buffer of
    the queue, and a result that the feeder thread cannot pickle is
    dropped there, so it stays in this list and [get] never returns it. *)
Record state : Type := State {
  q_in : list item;
  q_out : list (nat * B);
  proc : list wstate;
  pc : cstate;
  hist : list event
}.

(** [multiprocessing.Queue(1)] *)
Definition q_in_maxsize : nat := 1.

(** [q_in.put(it)] by the coordinator, which then continues at [c];
    blocks while the queue is full.  An item that cannot be pickled is
    dropped by the feeder thread, which gives its slot back: it never
    gets into the queue. *)
Definition put_in (it : item) (c : cstate) (s : state) : option state :=
  if decide (length (q_in s) < q_in_maxsize) then
    Some (State (if can_pickle it.2 then q_in s ++ [it] else q_in s)
                (q_out s) (proc s) c (EvPut it :: hist s))
  else None.

(** [q_out.get()]: the oldest result that could be pickled, and what is
    left; [None] while there is none, and the coordinator blocks. *)
Fixpoint get_out (q : list (nat * B)) : option ((nat * B) * list (nat * B)) :=
  match q with
  | [] => None
  | r :: q' =>
      if can_pickle r.2 then Some (r, q')
      else '(r', q'') ← get_out q'; Some (r', r :: q'')
  end.

(** The state right after the two queues and the process objects have
    been created. *)
Definition parmap_init : state :=
  State [] [] (replicate (range_len nprocs) WNew) (CStart 0) [].

(** One transition of the coordinator; [None] when it is blocked or has
    reached [return].  [p.daemon = True] only matters when the parent
    exits, which no transition does. *)
Definition parmap_step (s : state) : option state :=
  match pc s with
  | CStart k =>
      if decide (k < length (proc s)) then
        Some (State (q_in s) (q_out s) (<[k := WIdle]> (proc s))
                    (CStart (S k)) (EvStart k :: hist s))
      else
        Some (State (q_in s) (q_out s) (proc s) (CFeed (enumerate X) 0) (hist s))
  | CFeed [] sent =>
      Some (State (q_in s) (q_out s) (proc s) (CStop (range_len nprocs) sent) (hist s))
  | CFeed (ix :: todo) sent =>
      put_in (work ix) (CFeed todo (S sent)) s
  | CStop 0 sent =>
      Some (State (q_in s) (q_out s) (proc s) (CRecv sent []) (hist s))
  | CStop (S k) sent =>
      put_in sentinel (CStop k sent) s
  | CRecv 0 res =>
      Some (State (q_in s) (q_out s) (proc s) (CJoin 0 res) (hist s))
  | CRecv (S k) res =>
      match get_out (q_out s) with
      | None => None
      | Some (r, q) =>
          Some (State (q_in s) q (proc s) (CRecv k (res ++ [r])) (EvRecv r :: hist s))
      end
  | CJoin k res =>
      match proc s !! k with
      | None => Some (State (q_in s) (q_out s) (proc s) (CRet res) (hist s))
      | Some w =>
          if exited w then
            Some (State (q_in s) (q_out s) (proc s) (CJoin (S k) res)
                        (EvJoin k :: hist s))
          else None
      end
  | CRet _ => None
  end.

(** One transition of worker [k], the body of [fun]: [q_in.get()] with
    the test [i is None], then [q_out.put((i, f(x)))], which returns
    whether or not the result can be pickled. *)
Definition fun_step (k : nat) (s : state) : option state :=
  match proc s !! k with
  | Some WIdle =>
      match q_in s with
      | [] => None
      | (None, x) :: q =>
          Some (State q (q_out s) (<[k := WDone]> (proc s)) (pc s)
                      (EvGet k (None, x) :: hist s))
      | (Some i, x) :: q =>
          Some (State q (q_out s) (<[k := WBusy i x]> (proc s)) (pc s)
                      (EvGet k (Some i, x) :: hist s))
      end
  | Some (WBusy i x) =>
      match f x with
      | Some y =>
          Some (State (q_in s) (q_out s ++ [(i, y)]) (<[k := WIdle]> (proc s)) (pc s)
                      (EvOut k (i, y) :: hist s))
      | None =>
          Some (State (q_in s) (q_out s) (<[k := WDead i x]> (proc s)) (pc s)
                      (EvRaise k i :: hist s))
      end
  | _ => None
  end.

(** The pool moves when the coordinator or one of the workers does. *)
Definition step (s s' : state) : Prop :=
  parmap_step s = Some s' ∨ ∃ k, fun_step k s = Some s'.

Definition reachable (s : state) : Prop := rtc step parmap_init s.

(** Worker [k] making [n] transitions on its own. *)
Definition fun_steps (k n : nat) : relation state :=
  nsteps (λ s s', fun_step k s = Some s') n.

(** *** [sorted(res)] and the returned list *)

(** [a < b] on tuples [(i, y)]. *)
Definition tuple_lt (a b : nat * B) : bool :=
  if decide (a.1 = b.1) then lt_val a.2 b.2 else bool_decide (a.1 < b.1).

Fixpoint insert_sorted (a : nat * B) (l : list (nat * B)) : list (nat * B) :=
  match l with
  | [] => [a]
  | b :: l' => if tuple_lt b a then b :: insert_sorted a l' else a :: b :: l'
  end.

(** [sorted] is stable and uses [<] only. *)
Definition sorted (l : list (nat * B)) : list (nat * B) :=
  foldr insert_sorted [] l.

(** [[x for i, x in sorted(res)]] *)
Definition retval (res : list (nat * B)) : list B := (sorted res).*2.

(** The call has returned [out]. *)
Definition returned (s : state) (out : list B) : Prop :=
  ∃ res, pc s = CRet res ∧ out = retval res.

Definition is_ret (s : state) : bool :=
  match pc s with CRet _ => true | _ => false end.

(** Whatever the scheduler does, the pool gets to a state in [Q] after
    finitely many transitions. *)
Inductive eventually (Q : state → Prop) (s : state) : Prop :=
  | ev_now : Q s → eventually Q s
  | ev_step :
      (∃ s', step s s') →
      (∀ s', step s s' → eventually Q s') →
      eventually Q s.

(** Under every scheduling the call returns, and returns [out]. *)
Definition always_returns (out : list B) (s : state) : Prop :=
  eventually (λ s', returned s' out) s.

(** The call is blocked for good: nobody can move and the coordinator is
    not at its [return]. *)
Definition deadlocked (s : state) : Prop :=
  is_ret s = false ∧ ∀ s', ¬ step s s'.

(** Under every scheduling the call ends up blocked for good. *)
Definition always_hangs (s : state) : Prop := eventually deadlocked s.

(** *** Running the pool under a given schedule *)

Inductive actor : Type :=
  | Coord
  | Worker (k : nat).

Definition act (a : actor) (s : state) : option state :=
  match a with
  | Coord => parmap_step s
  | Worker k => fun_step k s
  end.

Fixpoint run (sch : list actor) (s : state) : option state :=
  match sch with
  | [] => Some s
  | a :: sch' => s' ← act a s; run sch' s'
  end.

(** A schedule that always lets the first process that can move do so,
    trying the workers in the order [ks] and the coordinator last. *)
Fixpoint first_enabled (ks : list nat) (s : state) : option state :=
  match ks with
  | [] => parmap_step s
  | k :: ks' =>
      match fun_step k s with
      | Some s' => Some s'
      | None => first_enabled ks' s
      end
  end.

Fixpoint run_first (ks : list nat) (fuel : nat) (s : state) : state :=
  match fuel with
  | 0 => s
  | S n =>
      match first_enabled ks s with
      | Some s' => run_first ks n s'
      | None => s
      end
  end.

(** The schedule [sch], then the first process that can move. *)
Definition run_then (sch : list actor) (ks : list nat) (fuel : nat)
    (s : state) : state :=
  match run sch s with
  | Some s' => run_first ks fuel s'
  | None => s
  end.

(** The sequential map [[f(x) for x in X]], which raises when [f] does. *)
Definition seq_map : option (list B) := mapM f X.

(** [f] returns on every element of [X]. *)
Definition total_on : Prop := Forall (λ x, is_Some (f x)) X.

(** The elements of [X] and the values of [f] on them can be pickled. *)
Definition pickles_on : Prop :=
  Forall (λ x, can_pickle x = true ∧ ∀ y, f x = Some y → can_pickle y = true) X.

(** *** Where the items are *)

(** The work items and the number of sentinels waiting in [q_in]. *)
Definition q_work (q : list item) : list (nat * py A) :=
  omap (λ it : item, i ← it.1; Some (i, it.2)) q.

Definition q_stops (q : list item) : nat :=
  sum_list_with (λ it : item, if it.1 is None then 1 else 0) q.

(** The item a worker has taken from [q_in] and not answered. *)
Definition w_hold (w : wstate) : list (nat * py A) :=
  match w with
  | WBusy i x | WDead i x => [(i, x)]
  | _ => []
  end.

Definition held (ps : list wstate) : list (nat * py A) :=
  flat_map w_hold ps.

Definition n_done (ps : list wstate) : nat :=
  sum_list_with (λ w, if w is WDone then 1 else 0) ps.

(** The items the coordinator has still to put, the results it has got,
    and the number of sentinels it has put. *)
Definition c_todo (c : cstate) : list (nat * py A) :=
  match c with
  | CStart _ => enumerate X
  | CFeed todo _ => todo
  | _ => []
  end.

Definition c_res (c : cstate) : list (nat * B) :=
  match c with
  | CRecv _ res | CJoin _ res | CRet res => res
  | _ => []
  end.

Definition c_stops (c : cstate) : nat :=
  match c with
  | CStart _ | CFeed _ _ => 0
  | CStop k _ => range_len nprocs - k
  | _ => range_len nprocs
  end.

Definition c_started (c : cstate) : nat :=
  match c with
  | CStart k => k
  | _ => range_len nprocs
  end.

Definition c_joined (c : cstate) : nat :=
  match c with
  | CJoin k _ => k
  | CRet _ => range_len nprocs
  | _ => 0
  end.

(** An item carries the element of [X] at its index; a result carries the
    value of [f] there. *)
Definition good_item (ix : nat * py A) : Prop := X !! ix.1 = Some ix.2.

Definition good_res (r : nat * B) : Prop :=
  ∃ x, X !! r.1 = Some x ∧ f x = Some r.2.

Definition good_w (w : wstate) : Prop :=
  match w with
  | WBusy i x => X !! i = Some x
  | WDead i x => X !! i = Some x ∧ f x = None
  | _ => True
  end.

(** The indices of the work items that were put and dropped, latest
    first. *)
Definition lost (h : list event) : list nat :=
  omap (λ e, match e with
             | EvPut (Some i, x) => if can_pickle x then None else Some i
             | _ => None
             end) h.

(** The invariant of the pool. *)
Record inv (s : state) : Prop := Inv {
  inv_procs : length (proc s) = range_len nprocs;
  inv_cap : length (q_in s) ≤ q_in_maxsize;
  inv_pc :
    match pc s with
    | CStart k => k ≤ range_len nprocs
    | CFeed todo sent => sent + length todo = length X
    | CStop k sent => k ≤ range_len nprocs ∧ sent = length X
    | CRecv k res => k + length res = length X
    | CJoin k res => k ≤ range_len nprocs ∧ length res = length X
    | CRet res => length res = length X
    end;
  inv_started : Forall (λ w, w ≠ WNew) (take (c_started (pc s)) (proc s));
  inv_new : Forall (λ w, w = WNew) (drop (c_started (pc s)) (proc s));
  inv_joined : Forall (λ w, exited w = true) (take (c_joined (pc s)) (proc s));
  inv_idx :
    (c_todo (pc s)).*1 ++ (q_work (q_in s)).*1 ++ (held (proc s)).*1
      ++ (q_out s).*1 ++ (c_res (pc s)).*1 ++ lost (hist s)
    ≡ₚ seq 0 (length X);
  inv_items : Forall good_item (c_todo (pc s) ++ q_work (q_in s));
  inv_workers : Forall good_w (proc s);
  inv_results : Forall good_res (q_out s ++ c_res (pc s));
  inv_stops : q_stops (q_in s) + n_done (proc s) = c_stops (pc s);
  inv_fifo : 0 < c_stops (pc s) → q_work (q_in s) = []
}.

(** What has been pickled and what has not: only items that can be
    pickled get to a worker, only results that can be pickled get to the
    coordinator, and only items that cannot be pickled are lost. *)
Record pickle_inv (s : state) : Prop := PickleInv {
  p_items : Forall (λ ix, can_pickle ix.2 = true)
              (q_work (q_in s) ++ held (proc s));
  p_results : Forall (λ r, ∃ x, X !! r.1 = Some x ∧ can_pickle x = true)
                (q_out s ++ c_res (pc s));
  p_received : Forall (λ r, can_pickle r.2 = true) (c_res (pc s));
  p_lost : Forall (λ i, ∃ x, X !! i = Some x ∧ can_pickle x = false)
             (lost (hist s))
}.

(** *** What the history records *)

Definition count_ev (p : event → bool) (h : list event) : nat :=
  sum_list_with (λ e, if p e then 1 else 0) h.

Definition is_put_work (e : event) : bool :=
  match e with EvPut (Some _, _) => true | _ => false end.

Definition is_put_stop (e : event) : bool :=
  match e with EvPut (None, _) => true | _ => false end.

Definition is_get_stop (k : nat) (e : event) : bool :=
  match e with EvGet k' (None, _) => bool_decide (k' = k) | _ => false end.

Definition is_recv (e : event) : bool :=
  match e with EvRecv _ => true | _ => false end.

Definition is_start (k : nat) (e : event) : bool :=
  match e with EvStart k' => bool_decide (k' = k) | _ => false end.

Definition is_join (k : nat) (e : event) : bool :=
  match e with EvJoin k' => bool_decide (k' = k) | _ => false end.

Definition once_below (n k : nat) : nat := if decide (k < n) then 1 else 0.

Record hist_inv (s : state) : Prop := HistInv {
  h_put_work : count_ev is_put_work (hist s) + length (c_todo (pc s)) = length X;
  h_put_stop : count_ev is_put_stop (hist s) = c_stops (pc s);
  h_get_stop : ∀ k,
    count_ev (is_get_stop k) (hist s) = if proc s !! k is Some WDone then 1 else 0;
  h_recv : count_ev is_recv (hist s) = length (c_res (pc s));
  h_start : ∀ k, count_ev (is_start k) (hist s) = once_below (c_started (pc s)) k;
  h_join : ∀ k, count_ev (is_join k) (hist s) = once_below (c_joined (pc s)) k
}.

(** *** A measure that every transition decreases *)

Definition w_weight (w : wstate) : nat :=
  match w with WBusy _ _ => 2 | _ => 0 end.

Definition c_weight (np : nat) (c : cstate) : nat :=
  match c with
  | CStart k => (np - k) + 5 * length X + 4 * range_len nprocs + np + 5
  | CFeed todo sent => 5 * length todo + sent + 4 * range_len nprocs + np + 4
  | CStop k sent => 4 * k + sent + np + 3
  | CRecv k res => k + np + 2
  | CJoin k res => (np - k) + 1
  | CRet _ => 0
  end.

Definition measure (s : state) : nat :=
  c_weight (length (proc s)) (pc s) + 3 * length (q_in s)
    + sum_list_with w_weight (proc s) + length (q_out s).

(** The pool has been shut down: there are [nprocs] workers (none when
    [nprocs] is negative), one sentinel was put per worker, every worker
    took exactly one, returned from [fun] and was joined, and [q_in] is
    empty. *)
Definition shut_down (s : state) : Prop :=
  Z.of_nat (length (proc s)) = Z.max 0 nprocs
  ∧ Z.of_nat (count_ev is_put_stop (hist s)) = Z.max 0 nprocs
  ∧ (∀ k, (Z.of_nat k < nprocs)%Z →
       count_ev (is_get_stop k) (hist s) = 1
       ∧ proc s !! k = Some WDone
       ∧ count_ev (is_join k) (hist s) = 1)
  ∧ q_in s = [].

(** The claim that in every call each worker takes exactly one sentinel
    before it terminates. *)
Definition one_sentinel_each : Prop :=
  ∀ s k w, reachable s → proc s !! k = Some w → exited w = true →
    count_ev (is_get_stop k) (hist s) = 1.

(** The claim that a call is refused implies at least that no execution of
    it gets to [return]. *)
Definition never_returns : Prop := ∀ s, reachable s → is_ret s = false.

(** *** More of the history *)

(** The items put on [q_in], latest first. *)
Definition put_log (h : list event) : list item :=
  omap (λ e, if e is EvPut it then Some it else None) h.

(** Everything a call puts on [q_in] when it gets that far. *)
Definition all_puts : list item :=
  (work <$> enumerate X) ++ replicate (range_len nprocs) sentinel.

(** The sentinels the coordinator has still to put. *)
Definition c_left (c : cstate) : nat :=
  match c with
  | CStart _ | CFeed _ _ => range_len nprocs
  | CStop k _ => k
  | _ => 0
  end.

(** A worker has evaluated [f] on the item of index [i]: it has put the
    result, or [f] has raised. *)
Definition is_eval (i : nat) (e : event) : bool :=
  match e with
  | EvOut _ (j, _) | EvRaise _ j => bool_decide (j = i)
  | _ => false
  end.

(** The occurrences of [i] in a list of indices, and among the workers
    that [f] killed. *)
Definition occ (i : nat) (l : list nat) : nat :=
  sum_list_with (λ j, if bool_decide (j = i) then 1 else 0) l.

Definition n_dead (i : nat) (ps : list wstate) : nat :=
  sum_list_with (λ w, if w is WDead j _ then
                        if bool_decide (j = i) then 1 else 0
                      else 0) ps.

(** An execution of [n] transitions. *)
Definition steps (n : nat) : relation state := nsteps step n.

End pool.

(** *** Concrete calls *)

(** [lambda x: x * x], which raises [TypeError] on [None]. *)
Definition square (x : py Z) : option Z :=
  match x with
  | PyObj z => Some (z * z)%Z
  | PyNone => None
  end.

(** [lambda x: 1 if x is None else 0] *)
Definition is_none (x : py Z) : option Z :=
  match x with
  | PyNone => Some 1%Z
  | PyObj _ => Some 0%Z
  end.

Definition X_A : list (py Z) := PyObj <$> [1; 2; 3; 4; 5]%Z.

Definition X_C : list (py Z) := [PyObj 1; PyObj 2; PyNone; PyObj 4; PyObj 5]%Z.

Definition X_N : list (py Z) := [PyObj 7; PyNone; PyObj 9]%Z.

(** [lambda x: (lambda: x)], which returns a function whatever [x] is, and
    [lambda g: 0], which takes one. *)
Definition make_closure (x : py Z) : option pyval := Some VFun.

Definition zero (g : py pyval) : option Z := Some 0%Z.

Definition X_P : list (py Z) := PyObj <$> [1; 2]%Z.

Definition X_F : list (py pyval) := [PyObj VFun].

(** Where the call of scenario C, in which [f] raises on [X_C[2]], comes
    to rest when the workers are tried in the order 0, 1, 2. *)
Definition end_C : state := run_first square X_C 3 [0; 1; 2] 100 (parmap_init 3).

(** The state a two-worker call on [X_A] ends in when worker 0, then
    worker 1, then the coordinator is tried at every turn. *)
Definition end_01 : state := run_first square X_A 2 [0; 1] 100 (parmap_init 2).

(** The same call when worker 0 is slow on [X_A[0]]: worker 1 takes
    [X_A[1]] and answers first. *)
Definition end_10 : state :=
  run_then square X_A 2
    [Coord; Coord; Coord; Coord; Worker 0; Coord; Worker 1; Worker 1; Worker 0]
    [0; 1] 100 (parmap_init 2).

(** The first nine transitions of that call, and the state they lead to. *)
Definition sch_10 : list actor :=
  [Coord; Coord; Coord; Coord; Worker 0; Coord; Worker 1; Worker 1; Worker 0].

Definition mid_10 : state :=
  default (parmap_init 2) (run square X_A 2 sch_10 (parmap_init 2)).

(** A worker waiting at a queue that holds two work items, a sentinel and
    one more item. *)
Definition s_worker : @state Z Z :=
  State [work (4, PyObj 3%Z); work (0, PyObj 5%Z); (None, PyObj 8%Z);
         work (7, PyObj 1%Z)]
        [(2, 4%Z)] [WDone; WIdle] (CRecv 3 []) [].

End ParMap.

(** ** [cost_normalization] *)

(** The arrays live in a heap, so that [C /= v], which writes into the
    caller's array, differs from [C = np.log(1 + C)], which binds the
    local name to a new array.  Entries are float64 values of a type [F]
    with the operations of numpy as parameters; every array owns its data
    and can be written. *)
Module CostNorm.

Section cost.
Context {F : Type}.

(** [x / v], [1 + x] and [log(x)] on entries. *)
Variable fdiv : F → F → F.
Variable fadd1 : F → F.
Variable flog : F → F.
(** [float(np.median(C))], which is [nan] for an empty array. *)
Variable np_median : list (list F) → F.
(** [float(np.max(C))], which raises [ValueError] for an empty array. *)
Variable np_max : list (list F) → option F.

Definition map_matrix (g : F → F) (m : list (list F)) : list (list F) :=
  map (map g) m.

(** [C /= v]: the entries of the array at [C] are overwritten. *)
Definition idiv (h : gmap nat (list (list F))) (C : nat) (v : F)
    : option (gmap nat (list (list F))) :=
  m ← h !! C; Some (<[C := map_matrix (λ x, fdiv x v) m]> h).

(** An elementwise numpy function: the result is a new array. *)
Definition ufunc (g : F → F) (h : gmap nat (list (list F))) (C : nat)
    : option (gmap nat (list (list F)) * nat) :=
  m ← h !! C;
  let C' := fresh (dom h) in
  Some (<[C' := map_matrix g m]> h, C').

(** [cost_normalization(C, norm)] from the heap [h]: the heap after the
    call and the array returned; [None] when the call raises. *)
Definition cost_normalization (h : gmap nat (list (list F))) (C : nat)
    (norm : option string) : option (gmap nat (list (list F)) * nat) :=
  if decide (norm = Some "median") then
    m ← h !! C; h' ← idiv h C (np_median m); Some (h', C)
  else if decide (norm = Some "max") then
    m ← h !! C; v ← np_max m; h' ← idiv h C v; Some (h', C)
  else if decide (norm = Some "log") then
    '(h1, t1) ← ufunc fadd1 h C;
    ufunc flog h1 t1
  else if decide (norm = Some "loglog") then
    '(h1, t1) ← ufunc fadd1 h C;
    '(h2, t2) ← ufunc flog h1 t1;
    '(h3, t3) ← ufunc fadd1 h2 t2;
    ufunc flog h3 t3
  else Some (h, C).

End cost.

(** A heap with one 2x2 matrix of integers, for running the function. *)
Definition h_ex : gmap nat (list (list Z)) := {[ 0 := [[2; 4]; [6; 8]]%Z ]}.

Definition max_ex (m : list (list Z)) : option Z :=
  match concat m with
  | [] => None
  | x :: l => Some (foldr Z.max x l)
  end.

Definition median_ex (m : list (list Z)) : Z := default 0%Z (concat m !! 0).

End CostNorm.

(** ** [clean_zeros] *)

Module CleanZeros.

Section clean.
Context {F : Type}.

(** [x > 0] on entries, which is false for [nan]. *)
Variable gt0 : F → bool.

(** A 2-d array: numpy knows the number of columns even when there is no
    row. *)
Record array2 : Type := Array2 {
  ncols : nat;
  rows : list (list F)
}.

Definition wf (M : array2) : Prop :=
  Forall (λ r, length r = ncols M) (rows M).

(** The entries of [l] where [mask] is true. *)
Fixpoint select {T} (mask : list bool) (l : list T) : list T :=
  match mask, l with
  | b :: mask', x :: l' => if b then x :: select mask' l' else select mask' l'
  | _, _ => []
  end.

(** [l[mask]]: numpy raises [IndexError] when the mask has not the length
    of the indexed dimension. *)
Definition bool_index {T} (mask : list bool) (l : list T) : option (list T) :=
  if decide (length mask = length l) then Some (select mask l) else None.

(** [M[:, mask]] *)
Definition col_index (mask : list bool) (M : array2) : option array2 :=
  if decide (length mask = ncols M) then
    Some (Array2 (length (select mask mask)) (select mask <$> rows M))
  else None.

(** [clean_zeros(a, b, M)]; [None] when an index expression raises. *)
Definition clean_zeros (a b : list F) (M : array2)
    : option (list F * list F * array2) :=
  M1 ← bool_index (gt0 <$> a) (rows M);
  M2 ← col_index (gt0 <$> b) (Array2 (ncols M) M1);
  a2 ← bool_index (gt0 <$> a) a;
  b2 ← bool_index (gt0 <$> b) b;
  Some (a2, b2, M2).

End clean.

(** Weights with two zeros and a 3x2 cost matrix. *)
Definition a_ex : list Z := [3; 0; 5]%Z.

Definition b_ex : list Z := [0; 7]%Z.

Definition M_ex : @array2 Z := Array2 2 [[1; 2]; [3; 4]; [5; 6]]%Z.

End CleanZeros.

(** ** [check_params] *)

Module CheckParams.

Section check.
Context {A : Type}.

Definition newline : string := String (Ascii.ascii_of_nat 10) "".

(** What [print(x, y)] writes before the end of the line. *)
Definition print2 (x y : string) : string := x +:+ " " +:+ y.

Definition header : string :=
  "POT - Warning: following necessary parameters are missing".

(** The loop [for param in kwargs], from the list [missing_params] built
    so far. *)
Fixpoint collect_missing (kwargs : list (string * py A))
    (missing_params : list string) : list string :=
  match kwargs with
  | [] => missing_params
  | (param, v) :: kwargs' =>
      collect_missing kwargs'
        (if v is PyNone then missing_params ++ [param] else missing_params)
  end.

(** [check_params] on its keyword arguments, in the order of the call:
    what is printed, one string per call of [print], and the value
    returned. *)
Definition check_params (kwargs : list (string * py A)) : list string * bool :=
  let missing_params := collect_missing kwargs [] in
  if decide (0 < length missing_params) then
    (header :: (print2 newline <$> missing_params), false)
  else ([], true).

Definition is_None (v : py A) : bool :=
  match v with PyNone => true | PyObj _ => false end.

End check.

(** [check_params(a=1, reg=None, b=2, M=None)] *)
Definition kwargs_ex : list (string * py Z) :=
  [("a", PyObj 1%Z); ("reg", PyNone); ("b", PyObj 2%Z); ("M", PyNone)].

End CheckParams.

(** ** [deprecated], [_is_deprecated] and [BaseEstimator] *)

Module Estimator.

(** The exceptions these functions raise, by themselves or through the
    interpreter. *)
Inductive error : Type :=
  | RuntimeError
  | ValueError
  | AttributeError
  | RecursionError
  | NotImplementedError.

Inductive result (T : Type) : Type :=
  | Ok (x : T)
  | Raise (e : error).
Arguments Ok {T} x.
Arguments Raise {T} e.

#[global] Instance result_bind : MBind result :=
  λ T U k r, match r with Ok x => k x | Raise e => Raise e end.

(** *** Strings *)

(** [p in s] *)
Fixpoint contains (p s : string) : bool :=
  String.prefix p s
  || match s with
     | EmptyString => false
     | String _ s' => contains p s'
     end.

(** [key.split('__', 1)] when it has two parts: what is before the
    leftmost ["__"] and what is after it. *)
Fixpoint split_dunder (s : string) : option (string * string) :=
  match s with
  | EmptyString => None
  | String c s' =>
      match s' with
      | String c' rest =>
          if String.eqb (String c (String c' EmptyString)) "__"
          then Some (EmptyString, rest)
          else (λ p, (String c p.1, p.2)) <$> split_dunder s'
      | EmptyString => None
      end
  end.

Definition newline : string := String (Ascii.ascii_of_nat 10) "".

(** *** Function objects and classes *)

(** [inspect.Parameter.kind] *)
Inductive kind : Type :=
  | POSITIONAL_ONLY
  | POSITIONAL_OR_KEYWORD
  | VAR_POSITIONAL
  | KEYWORD_ONLY
  | VAR_KEYWORD.

#[global] Instance kind_eq_dec : EqDecision kind.
Proof. solve_decision. Defined.

Record param : Type := Param {
  p_name : string;
  p_kind : kind
}.

(** The contents of a closure cell: a [str], or anything else. *)
Inductive cell : Type :=
  | CellStr (s : string)
  | CellObj.

#[local] Set Warnings "-register-all".

(** A callable: [object.__init__], or a Python function with its name,
    docstring, signature, [__closure__] ([None] when it has no free
    variable) and its attribute [deprecated_original] when it has one. *)
Inductive func : Type :=
  | ObjectInit
  | Func (name : string) (doc : option string) (sig : list param)
         (closure : option (list cell)) (deprecated_original : option func).

Record class : Type := Class {
  c_name : string;
  c_init : func
}.

(** What [deprecated(extra)] and [_is_deprecated] are applied to. *)
Inductive pyobj : Type :=
  | OClass (c : class)
  | OFunc (fn : func).

Section deprecated.
(** [self.extra] *)
Variable extra : string.
(** [object.__init__.__doc__] *)
Variable object_init_doc : option string.

Definition f_doc (fn : func) : option string :=
  match fn with
  | ObjectInit => object_init_doc
  | Func _ doc _ _ _ => doc
  end.

(** [_update_doc]: an empty [extra] and a missing or empty [olddoc] are
    false. *)
Definition _update_doc (olddoc : option string) : string :=
  let newdoc := "DEPRECATED" in
  let newdoc := if decide (extra = "") then newdoc
                else newdoc +:+ ": " +:+ extra in
  match olddoc with
  | Some d => if decide (d = "") then newdoc
              else newdoc +:+ newline +:+ newline +:+ d
  | None => newdoc
  end.

(** [msg], from ["Class %s is deprecated"] or ["Function %s is deprecated"] *)
Definition deprecation_msg (what name : string) : string :=
  let msg := what +:+ " " +:+ name +:+ " is deprecated" in
  if decide (extra = "") then msg else msg +:+ "; " +:+ extra.

(** The signature of [wrapped], which takes any positional and any
    keyword arguments. *)
Definition wrapped_sig : list param :=
  [Param "args" VAR_POSITIONAL; Param "kwargs" VAR_KEYWORD].

(** [_decorate_fun]: [wrapped] closes over [fun] and [msg], takes the name
    of [fun], shares its [__dict__], and so its attributes, and gets the
    new docstring.  [object.__init__] has no [__dict__] to share. *)
Definition _decorate_fun (fn : func) : result func :=
  match fn with
  | ObjectInit => Raise AttributeError
  | Func name doc _ _ deprecated_original =>
      Ok (Func name (Some (_update_doc doc)) wrapped_sig
               (Some [CellObj; CellStr (deprecation_msg "Function" name)])
               deprecated_original)
  end.

(** [_decorate_class]: [cls.__init__] becomes [wrapped], which closes over
    [init] and [msg] and remembers [init] as [deprecated_original]. *)
Definition _decorate_class (cls : class) : class :=
  let init := c_init cls in
  Class (c_name cls)
        (Func "__init__" (Some (_update_doc (f_doc init))) wrapped_sig
              (Some [CellObj; CellStr (deprecation_msg "Class" (c_name cls))])
              (Some init)).

(** [deprecated(extra)(obj)] *)
Definition decorate (o : pyobj) : result pyobj :=
  match o with
  | OClass cls => Ok (OClass (_decorate_class cls))
  | OFunc fn => fn' ← _decorate_fun fn; Ok (OFunc fn')
  end.

End deprecated.

(** [getattr(func, '__closure__', [])], with [None] replaced by [[]]. *)
Definition closures (o : pyobj) : list cell :=
  match o with
  | OFunc (Func _ _ _ (Some cs) _) => cs
  | _ => []
  end.

(** [_is_deprecated(func)] under the interpreter [major.minor]. *)
Definition _is_deprecated (major minor : nat) (o : pyobj) : result bool :=
  if decide (major < 3 ∨ (major = 3 ∧ minor < 5)) then Raise NotImplementedError
  else
    Ok (contains "deprecated"
          (String.concat ""
             (omap (λ c, if c is CellStr s then Some s else None) (closures o)))).

(** *** [_get_param_names] *)

(** [sorted] on names. *)
Definition sorted_names (l : list string) : list string :=
  merge_sort String.le l.

Definition is_model_param (p : param) : bool :=
  negb (String.eqb (p_name p) "self") && negb (bool_decide (p_kind p = VAR_KEYWORD)).

Definition _get_param_names (cls : class) : result (list string) :=
  let init := match c_init cls with
              | Func _ _ _ _ (Some original) => original
              | init => init
              end in
  match init with
  | ObjectInit => Ok []
  | Func _ _ sig _ _ =>
      let parameters := filter (λ p, is_model_param p = true) sig in
      if decide (Exists (λ p, p_kind p = VAR_POSITIONAL) parameters) then
        Raise RuntimeError
      else Ok (sorted_names (p_name <$> parameters))
  end.

(** *** Estimators in the heap *)

Section estimators.
Context {A : Type}.

(** A value: [None], a reference to an estimator, or anything else. *)
Inductive val : Type :=
  | VNone
  | VAtom (a : A)
  | VRef (l : nat).

(** What reading an attribute gives: its value, after a
    [DeprecationWarning] as first warning or not. *)
Inductive attr : Type :=
  | Plain (v : val)
  | Deprecated (v : val).

Record obj : Type := Obj {
  o_class : class;
  o_attrs : gmap string attr
}.

(** What [get_params] records for the parameter [key]: nothing when
    reading it warns that it is deprecated, [None] when the attribute is
    missing, its value otherwise. *)
Definition read_param (o : obj) (key : string) : option val :=
  match o_attrs o !! key with
  | Some (Deprecated _) => None
  | Some (Plain v) => Some v
  | None => Some VNone
  end.

(** One turn of the loop of [get_params], with [rec] for
    [value.get_params()]. *)
Definition get_param
    (rec : nat → result (gmap string val)) (h : gmap nat obj) (o : obj)
    (deep : bool) (out : gmap string val) (key : string)
    : result (gmap string val) :=
  match o_attrs o !! key with
  | Some (Deprecated _) => Ok out
  | a =>
      let value := match a with Some (Plain v) => v | _ => VNone end in
      out' ← match value with
             | VRef l' =>
                 if deep && bool_decide (is_Some (h !! l')) then
                   deep_items ← rec l';
                   Ok (kmap (M1 := gmap string) (M2 := gmap string)
                         (String.app (key +:+ "__")) deep_items ∪ out)
                 else Ok out
             | _ => Ok out
             end;
      Ok (<[key := value]> out')
  end.

(** [self.get_params(deep)] for the estimator at [l], with [fuel] frames
    left on the interpreter's stack. *)
Fixpoint get_params (fuel : nat) (h : gmap nat obj) (l : nat) (deep : bool)
    : result (gmap string val) :=
  match fuel with
  | 0 => Raise RecursionError
  | S n =>
      match h !! l with
      | None => Raise AttributeError
      | Some o =>
          names ← _get_param_names (o_class o);
          foldl (λ acc key, out ← acc;
                   get_param (λ l', get_params n h l' true) h o deep out key)
                (Ok ∅) names
      end
  end.

(** [setattr(self, key, value)] *)
Definition setattr (h : gmap nat obj) (l : nat) (key : string) (value : val)
    : gmap nat obj :=
  match h !! l with
  | Some o => <[l := Obj (o_class o) (<[key := Plain value]> (o_attrs o))]> h
  | None => h
  end.

(** [setattr(self, key, value)] for each of [params] in turn. *)
Definition setattrs (h : gmap nat obj) (l : nat) (params : list (string * val))
    : gmap nat obj :=
  foldl (λ h' kv, setattr h' l kv.1 kv.2) h params.

(** The loop of [set_params] over the remaining [params], with [rec] for
    [sub_object.set_params]; the heap is returned also when the loop
    raises. *)
Fixpoint set_loop
    (rec : gmap nat obj → nat → list (string * val)
           → gmap nat obj * result val)
    (valid_params : gmap string val) (h : gmap nat obj) (l : nat)
    (params : list (string * val)) : gmap nat obj * result val :=
  match params with
  | [] => (h, Ok (VRef l))
  | (key, value) :: params' =>
      match split_dunder key with
      | Some (name, sub_name) =>
          match valid_params !! name with
          | None => (h, Raise ValueError)
          | Some (VRef l') =>
              if bool_decide (is_Some (h !! l')) then
                let '(h', r) := rec h l' [(sub_name, value)] in
                match r with
                | Ok _ => set_loop rec valid_params h' l params'
                | Raise e => (h', Raise e)
                end
              else (h, Raise AttributeError)
          | Some _ => (h, Raise AttributeError)
          end
      | None =>
          match valid_params !! key with
          | None => (h, Raise ValueError)
          | Some _ => set_loop rec valid_params (setattr h l key value) l params'
          end
      end
  end.

(** [self.set_params] with the keyword arguments [params], in the order of
    the call. *)
Fixpoint set_params (fuel : nat) (h : gmap nat obj) (l : nat)
    (params : list (string * val)) : gmap nat obj * result val :=
  match fuel with
  | 0 => (h, Raise RecursionError)
  | S n =>
      match params with
      | [] => (h, Ok (VRef l))
      | _ =>
          match get_params n h l true with
          | Raise e => (h, Raise e)
          | Ok valid_params => set_loop (set_params n) valid_params h l params
          end
      end
  end.

End estimators.

(** A class with the constructor [__init__(self, reg, max_iter, **kw)]. *)
Definition sig_ex : list param :=
  [Param "self" POSITIONAL_OR_KEYWORD; Param "reg" POSITIONAL_OR_KEYWORD;
   Param "max_iter" POSITIONAL_OR_KEYWORD; Param "kw" VAR_KEYWORD].

Definition cls_ex : class :=
  Class "Transport" (Func "__init__" None sig_ex None None).

(** One instance of it, with [reg = 7] and no attribute [max_iter], and
    what [get_params()] returns for it. *)
Definition o_ex : @obj Z := Obj cls_ex {[ "reg" := Plain (VAtom 7%Z) ]}.

Definition h_ex : gmap nat (@obj Z) := {[ 0 := o_ex ]}.

Definition valid_ex : gmap string (@val Z) :=
  {[ "max_iter" := VNone; "reg" := VAtom 7%Z ]}.

(** A class whose constructor takes an estimator, an instance of it that
    holds the instance above, and what [get_params()] returns for it. *)
Definition cls_pipe_ex : class :=
  Class "Pipeline"
    (Func "__init__" None
       [Param "self" POSITIONAL_OR_KEYWORD; Param "step" POSITIONAL_OR_KEYWORD]
       None None).

Definition h2_ex : gmap nat (@obj Z) :=
  {[ 0 := o_ex; 1 := Obj cls_pipe_ex {[ "step" := Plain (VRef 0) ]} ]}.

Definition valid2_ex : gmap string (@val Z) :=
  {[ "step" := VRef 0; "step__max_iter" := VNone; "step__reg" := VAtom 7%Z ]}.

(** [def solve(x)] with a docstring. *)
Definition solve_ex : func :=
  Func "solve" (Some "Solve it.") [Param "x" POSITIONAL_OR_KEYWORD] None None.

End Estimator.

(** ** [sorted] on tuples with distinct indices *)

Section sorting.
Context {B : Type} (lt_val : B → B → bool).

Import ParMap.

Local Abbreviation by_index := (λ a b : nat * B, a.1 ≤ b.1).

Lemma tuple_lt_index (a b : nat * B) : tuple_lt lt_val a b = true → a.1 ≤ b.1.
Proof.
  unfold tuple_lt. case_decide; [lia|]. intros ?%bool_decide_eq_true. lia.
Qed.

Lemma tuple_ge_index (a b : nat * B) : tuple_lt lt_val a b = false → b.1 ≤ a.1.
Proof.
  unfold tuple_lt. case_decide; [lia|]. intros ?%bool_decide_eq_false. lia.
Qed.

Lemma insert_sorted_perm a l : insert_sorted lt_val a l ≡ₚ a :: l.
Proof.
  induction l as [|b l IH]; simpl; [done|].
  case_match; [|done]. rewrite IH. apply Permutation_swap.
Qed.

Lemma sorted_perm l : sorted lt_val l ≡ₚ l.
Proof.
  induction l as [|a l IH]; simpl; [done|].
  by rewrite insert_sorted_perm, IH.
Qed.

Lemma insert_sorted_HdRel a b l :
  by_index b a → HdRel by_index b l → HdRel by_index b (insert_sorted lt_val a l).
Proof. destruct 2; simpl; [|case_match]; by constructor. Qed.

Lemma insert_sorted_Sorted a l :
  Sorted by_index l → Sorted by_index (insert_sorted lt_val a l).
Proof.
  induction 1 as [|b l Hl IH Hb]; simpl; [by repeat constructor|].
  case_match eqn:Hlt.
  - constructor; [done|]. apply insert_sorted_HdRel; [|done].
    by apply tuple_lt_index.
  - constructor; [by constructor|]. constructor. by apply tuple_ge_index.
Qed.

Lemma sorted_Sorted l : Sorted by_index (sorted lt_val l).
Proof.
  induction l; simpl; [constructor|]. by apply insert_sorted_Sorted.
Qed.

Lemma Sorted_le_seq j n : Sorted le (seq j n).
Proof.
  revert j. induction n as [|n IH]; intros j; simpl; constructor; [done|].
  destruct n; simpl; constructor. lia.
Qed.

(** Sorting tuples whose indices are [0 .. n-1] in any order puts the tuple
    of index [i] at position [i], whatever [<] does on the values. *)
Lemma sorted_indices (l : list (nat * B)) n :
  l.*1 ≡ₚ seq 0 n → (sorted lt_val l).*1 = seq 0 n.
Proof.
  intros Hl. apply (Sorted_unique le).
  - apply (Sorted_fmap _ by_index); [done|]. apply sorted_Sorted.
  - apply Sorted_le_seq.
  - by rewrite sorted_perm.
Qed.

End sorting.

Section parmap_facts.
Context {A B : Type} `{!Pickle A, !Pickle B}.
Variable f : py A → option B.
Variable X : list (py A).
Variable nprocs : Z.

Import ParMap.

Local Abbreviation state := (@ParMap.state A B).
Local Abbreviation step := (ParMap.step f X nprocs).
Local Abbreviation parmap_step := (ParMap.parmap_step X nprocs).
Local Abbreviation fun_step := (ParMap.fun_step f).
Local Abbreviation measure := (ParMap.measure X nprocs).
Local Abbreviation inv := (ParMap.inv f X nprocs).
Local Abbreviation hist_inv := (ParMap.hist_inv X nprocs).
Local Abbreviation pickle_inv := (ParMap.pickle_inv X).
Local Abbreviation init := (@ParMap.parmap_init A B nprocs).
Local Abbreviation reachable := (ParMap.reachable f X nprocs).
Local Abbreviation P := (range_len nprocs).
Local Abbreviation N := (length X).

(** ** Lists of workers under an update *)

Lemma sum_list_with_insert {T} (g : T → nat) (l : list T) k w w' :
  l !! k = Some w →
  sum_list_with g (<[k := w']> l) + g w = sum_list_with g l + g w'.
Proof.
  revert k. induction l as [|a l IH]; intros [|k] Hk; simplify_eq/=; [lia|].
  specialize (IH _ Hk). lia.
Qed.

Lemma flat_map_insert {T U} (g : T → list U) (l : list T) k w w' :
  l !! k = Some w →
  flat_map g (<[k := w']> l) ++ g w ≡ₚ flat_map g l ++ g w'.
Proof.
  revert k. induction l as [|a l IH]; intros [|k] Hk; simplify_eq/=.
  - solve_Permutation.
  - rewrite <-!(assoc_L (++)). by rewrite (IH _ Hk).
Qed.

(** ** [enumerate] *)

Lemma length_enumerate {T} (l : list T) : length (enumerate l) = length l.
Proof. unfold enumerate. rewrite length_zip_with, length_seq. lia. Qed.

Lemma fst_enumerate {T} (l : list T) : (enumerate l).*1 = seq 0 (length l).
Proof. unfold enumerate. apply fst_zip. by rewrite length_seq. Qed.

Lemma elem_of_enumerate {T} (l : list T) i x :
  (i, x) ∈ enumerate l → l !! i = Some x.
Proof.
  unfold enumerate. intros [j Hj]%list_elem_of_lookup.
  apply lookup_zip_with_Some in Hj as (i' & x' & ? & Hi & Hx). simplify_eq.
  apply lookup_seq in Hi as [-> ?]. done.
Qed.

(** ** [q_out.get()] *)

Lemma get_out_Some (q : list (nat * B)) r q' :
  get_out q = Some (r, q') →
  can_pickle r.2 = true ∧ q ≡ₚ r :: q' ∧ length q = S (length q').
Proof.
  revert r q'. induction q as [|a q IH]; intros r q'; simpl; [done|].
  destruct (can_pickle a.2) eqn:Ha.
  - by intros [= <- <-].
  - destruct (get_out q) as [[r1 q1]|]; simpl; [|done]. intros [= <- <-].
    destruct (IH _ _ eq_refl) as (? & Hp & Hl). split_and!; [done| |simpl; lia].
    rewrite Hp. apply Permutation_swap.
Qed.

Lemma get_out_None (q : list (nat * B)) :
  get_out q = None → Forall (λ r, can_pickle r.2 = false) q.
Proof.
  induction q as [|a q IH]; simpl; [done|].
  destruct (can_pickle a.2) eqn:Ha; [done|].
  destruct (get_out q) as [[r1 q1]|]; simpl; [done|]. auto.
Qed.

(** ** Every transition decreases the measure *)

Lemma step_measure s s' : step s s' → measure s' < measure s.
Proof.
  intros [Hc | [k Hw]].
  - destruct s as [qi qo ps c h]. unfold parmap_step, put_in, measure in *.
    simpl in *.
    destruct c; repeat case_match; simplify_eq/=; repeat case_match;
      try match goal with H : get_out _ = Some _ |- _ =>
            apply get_out_Some in H as (_ & _ & ?) end;
      rewrite ?length_insert, ?length_app; simpl; try lia.
    + destruct (lookup_lt_is_Some_2 ps k) as [w Hw]; [done|].
      pose proof (sum_list_with_insert w_weight ps k w WIdle Hw). simpl in *. lia.
    + rewrite length_enumerate. lia.
    + match goal with H : _ !! _ = Some _ |- _ => apply lookup_lt_Some in H end. lia.
  - destruct s as [qi qo ps c h]. unfold ParMap.fun_step, measure in *. simpl in *.
    repeat case_match; simplify_eq/=.
    all: rewrite ?length_insert, ?length_app; simpl.
    all: match goal with H : ?l !! _ = Some ?w |- context [<[_ := ?w']> ?l] =>
           pose proof (sum_list_with_insert w_weight l _ w w' H) end; simpl in *; lia.
Qed.

(** ** The invariant holds in every reachable state *)

Lemma held_insert (ps : list (@wstate A)) k w w' :
  ps !! k = Some w →
  held (<[k := w']> ps) ++ w_hold w ≡ₚ held ps ++ w_hold w'.
Proof. apply flat_map_insert. Qed.

Lemma n_done_insert (ps : list (@wstate A)) k w w' :
  ps !! k = Some w →
  n_done (<[k := w']> ps) + (if w is WDone then 1 else 0)
  = n_done ps + (if w' is WDone then 1 else 0).
Proof. apply (sum_list_with_insert (λ w, if w is WDone then 1 else 0)). Qed.

Lemma held_new n : held (replicate n (@WNew A)) = [].
Proof. induction n; simpl; auto. Qed.

Lemma n_done_new n : n_done (replicate n (@WNew A)) = 0.
Proof. induction n; simpl; auto. Qed.

Lemma inv_init : inv init.
Proof.
  split; simpl; rewrite ?length_replicate, ?take_0, ?drop_0; try done; try lia.
  - apply Forall_replicate. done.
  - rewrite fst_enumerate, held_new. simpl. by rewrite app_nil_r.
  - rewrite app_nil_r. apply Forall_forall. intros [i x] Hix.
    by apply elem_of_enumerate.
  - apply Forall_replicate. done.
  - apply n_done_new.
Qed.

(** The coordinator puts into [q_in] only when it is empty. *)
Lemma put_in_Some it c (s s' : state) :
  put_in it c s = Some s' →
  q_in s = []
  ∧ s' = State (if can_pickle it.2 then [it] else []) (q_out s) (proc s) c
               (EvPut it :: hist s).
Proof.
  unfold put_in, q_in_maxsize. case_decide; [|done]. intros [= <-].
  destruct (q_in s); simpl in *; [done|lia].
Qed.

Ltac inv_norm :=
  simpl in *;
  rewrite ?length_insert, ?length_app, ?take_0, ?drop_0, ?app_nil_r, ?fmap_app,
    ?Forall_app, ?Forall_cons, ?Forall_app, ?Forall_nil in *;
  simpl in *.

Ltac use_insert :=
  match goal with
  | H : ?ps !! ?k = Some ?w |- context [<[?k := ?w']> ?ps] =>
      let Hh := fresh "Hh" in
      let Hd := fresh "Hd" in
      pose proof (held_insert ps k w w' H) as Hh;
      pose proof (n_done_insert ps k w w' H) as Hd;
      simpl in Hh, Hd; rewrite ?app_nil_r in Hh
  end.

Lemma inv_step_coord s s' : parmap_step s = Some s' → inv s → inv s'.
Proof.
  intros Hc [Hp Hcap Hpc Hst Hnew Hj Hidx Hit Hw' Hres Hstops Hfifo].
  destruct s as [qi qo ps c h]. unfold ParMap.parmap_step in Hc. simpl in *.
  destruct c as [k|[|ix todo] sent|[|k] sent|[|k] res|k res|res]; simpl in *.
  - (* p.start() *)
    case_decide as Hk; simplify_eq.
    + assert (ps !! k = Some WNew) as Hw.
      { destruct (lookup_lt_is_Some_2 ps k) as [w Hw]; [done|].
        rewrite Forall_lookup in Hnew. rewrite Hw. f_equal. apply (Hnew 0).
        rewrite lookup_drop. by rewrite Nat.add_0_r. }
      use_insert. split; inv_norm; try done; try lia.
      * rewrite (take_S_r _ _ WIdle) by (by apply list_lookup_insert_eq).
        rewrite take_insert_ge by lia. apply Forall_app. split; [done|].
        by repeat constructor.
      * rewrite drop_insert_lt by lia. rewrite (drop_S _ _ _ Hw) in Hnew.
        by inversion Hnew.
      * by rewrite Hh.
      * by apply Forall_insert.
    + assert (k = P) as -> by lia.
      split; inv_norm; try done; try lia.
      apply length_enumerate.
  - simplify_eq. split; inv_norm; try done; try lia.
  - apply put_in_Some in Hc as [Hq ->]. simpl in Hq. subst qi.
    destruct ix as [i x]. simpl. destruct (can_pickle x) eqn:Hpk.
    + split; inv_norm; rewrite ?Hpk; try done; try lia.
      * rewrite <-Hidx. solve_Permutation.
      * tauto.
    + split; inv_norm; rewrite ?Hpk; try done; try lia.
      * rewrite <-Hidx. simpl. solve_Permutation.
      * tauto.
  - simplify_eq. split; inv_norm; try done; try lia.
    intros ?. apply Hfifo. lia.
  - apply put_in_Some in Hc as [Hq ->]. simpl in Hq. subst qi.
    split; inv_norm; try done; try lia.
  - simplify_eq. split; inv_norm; try done; try lia.
  - destruct (get_out qo) as [[r qo']|] eqn:Hget; simplify_eq.
    apply get_out_Some in Hget as (_ & Hperm & Hlen).
    split; inv_norm; try done; try lia.
    + rewrite <-Hidx, Hperm. simpl. solve_Permutation.
    + rewrite Hperm in Hres. inv_norm. tauto.
  - destruct (ps !! k) as [w|] eqn:Hw.
    + destruct (exited w) eqn:Hex; simplify_eq.
      apply lookup_lt_Some in Hw as Hlt.
      split; inv_norm; try done; try lia.
      rewrite (take_S_r _ _ w) by done. apply Forall_app. split; [done|].
      by repeat constructor.
    + simplify_eq. apply lookup_ge_None in Hw.
      split; inv_norm; try done; try lia.
      rewrite take_ge by lia. rewrite take_ge in Hj by lia. done.
  - done.
Qed.

Lemma Forall_take_insert {T} (Q : T → Prop) (l : list T) j k w :
  Forall Q (take j l) → Q w → Forall Q (take j (<[k := w]> l)).
Proof.
  intros Hl Hw. destruct (decide (k < j)).
  - rewrite take_insert_lt by done. by apply Forall_insert.
  - rewrite take_insert_ge by lia. done.
Qed.

Lemma take_insert_outside {T} (Q : T → Prop) (l : list T) j k w w' :
  Forall Q (take j l) → l !! k = Some w → ¬ Q w →
  take j (<[k := w']> l) = take j l.
Proof.
  intros Hl Hk Hw. apply take_insert_ge.
  destruct (decide (j ≤ k)); [done|]. destruct Hw.
  apply (Forall_lookup_1 _ _ k w Hl). rewrite lookup_take_lt by lia. done.
Qed.

Lemma drop_insert_outside {T} (Q : T → Prop) (l : list T) j k w w' :
  Forall Q (drop j l) → l !! k = Some w → ¬ Q w →
  drop j (<[k := w']> l) = drop j l.
Proof.
  intros Hl Hk Hw. apply drop_insert_lt.
  destruct (decide (k < j)); [done|]. destruct Hw.
  apply (Forall_lookup_1 _ _ (k - j) w Hl). rewrite lookup_drop.
  replace (j + (k - j)) with k by lia. done.
Qed.

Lemma lookup_drop_new (ps : list (@wstate A)) k :
  Forall (λ w, w = WNew) (drop k ps) → k < length ps → ps !! k = Some WNew.
Proof.
  intros Hnew Hk. destruct (lookup_lt_is_Some_2 ps k) as [w Hw]; [done|].
  rewrite Hw. f_equal. apply (Forall_lookup_1 _ _ 0 w Hnew).
  rewrite lookup_drop. by rewrite Nat.add_0_r.
Qed.

Lemma inv_step_worker k s s' : fun_step k s = Some s' → inv s → inv s'.
Proof.
  intros Hc [Hp Hcap Hpc Hst Hnew Hj Hidx Hit Hw' Hres Hstops Hfifo].
  destruct s as [qi qo ps c h]. unfold ParMap.fun_step in Hc. simpl in *.
  destruct (ps !! k) as [w|] eqn:Hw; [|done].
  pose proof (Forall_lookup_1 _ _ _ _ Hw' Hw) as Hgw.
  destruct w as [| |i x| |]; try done.
  - destruct qi as [|[[i|] x] qi]; simplify_eq; use_insert.
    + split; inv_norm; try done; try lia; try tauto.
      * by apply Forall_take_insert.
      * by rewrite (drop_insert_outside _ _ _ _ _ _ Hnew Hw).
      * by rewrite (take_insert_outside _ _ _ _ _ _ Hj Hw).
      * rewrite Hh, <-Hidx, fmap_app. simpl. solve_Permutation.
      * apply Forall_insert; [done|]. simpl. apply Hit.
      * intros Hc. by apply Hfifo in Hc.
    + split; inv_norm; try done; try lia; try tauto.
      * by apply Forall_take_insert.
      * by rewrite (drop_insert_outside _ _ _ _ _ _ Hnew Hw).
      * by rewrite (take_insert_outside _ _ _ _ _ _ Hj Hw).
      * by rewrite Hh.
      * by apply Forall_insert.
  - destruct (f x) as [y|] eqn:Hfx; simplify_eq; use_insert.
    + split; inv_norm; try done; try lia; try tauto.
      * by apply Forall_take_insert.
      * by rewrite (drop_insert_outside _ _ _ _ _ _ Hnew Hw).
      * by rewrite (take_insert_outside _ _ _ _ _ _ Hj Hw).
      * rewrite <-Hidx, <-Hh, fmap_app. simpl. solve_Permutation.
      * by apply Forall_insert.
      * split_and!; try tauto. by exists x.
    + split; inv_norm; try done; try lia; try tauto.
      * by apply Forall_take_insert.
      * by rewrite (drop_insert_outside _ _ _ _ _ _ Hnew Hw).
      * by rewrite (take_insert_outside _ _ _ _ _ _ Hj Hw).
      * apply Permutation_app_inv_r in Hh. by rewrite Hh.
      * by apply Forall_insert.
Qed.

Lemma inv_step s s' : step s s' → inv s → inv s'.
Proof.
  intros [?|[k ?]]; eauto using inv_step_coord, inv_step_worker.
Qed.

Lemma inv_reachable s : reachable s → inv s.
Proof.
  intros Hs. refine (rtc_ind_r (λ s, inv s) _ inv_init _ s Hs).
  eauto using inv_step.
Qed.

(** ** What has been pickled *)

Lemma Forall_held_insert (Q : nat * py A → Prop) (ps : list (@wstate A)) k w w' :
  ps !! k = Some w → Forall Q (held ps) → Forall Q (w_hold w') →
  Forall Q (held (<[k := w']> ps)).
Proof.
  intros Hk Hps Hw'. pose proof (held_insert ps k w w' Hk) as Hperm.
  assert (Forall Q (held (<[k := w']> ps) ++ w_hold w)) as Hall.
  { rewrite Hperm. by apply Forall_app. }
  by apply Forall_app in Hall as [? _].
Qed.

Lemma held_elem_of (ps : list (@wstate A)) k w ix :
  ps !! k = Some w → ix ∈ w_hold w → ix ∈ held ps.
Proof.
  revert k. induction ps as [|a ps IH]; intros [|k] Hk Hix; simplify_eq/=.
  - apply elem_of_app. by left.
  - apply elem_of_app. right. eauto.
Qed.

Lemma pickle_inv_init : pickle_inv init.
Proof. split; simpl; rewrite ?held_new; constructor. Qed.

Lemma pickle_inv_step_coord s s' :
  parmap_step s = Some s' → inv s → pickle_inv s → pickle_inv s'.
Proof.
  intros Hc Hinv [Hit Hres Hrecv Hlost].
  pose proof (inv_items _ _ _ _ Hinv) as Hgood.
  destruct s as [qi qo ps c h]. unfold ParMap.parmap_step in Hc. simpl in *.
  destruct c as [k|[|ix todo] sent|[|k] sent|[|k] res|k res|res]; simpl in *.
  - case_decide as Hk; simplify_eq; [|by split].
    destruct (lookup_lt_is_Some_2 ps k) as [w Hw]; [done|].
    apply Forall_app in Hit as [Hq Hh].
    split; simpl; try done. apply Forall_app. split; [done|].
    apply (Forall_held_insert _ _ _ w); [done..|constructor].
  - simplify_eq. by split.
  - apply put_in_Some in Hc as [Hq ->]. simpl in Hq. subst qi.
    destruct ix as [i x]. simpl in *. destruct (can_pickle x) eqn:Hpk.
    + split; simpl; rewrite ?Hpk; try done. by constructor.
    + split; simpl; rewrite ?Hpk; try done. constructor; [|done].
      apply Forall_cons in Hgood as [Hix _]. by exists x.
  - simplify_eq. by split.
  - apply put_in_Some in Hc as [Hq ->]. simpl in Hq. subst qi. by split.
  - simplify_eq. by split.
  - destruct (get_out qo) as [[r qo']|] eqn:Hget; simplify_eq.
    apply get_out_Some in Hget as (Hr & Hperm & _).
    split; simpl; try done.
    + rewrite Hperm in Hres. simpl in Hres.
      apply Forall_cons in Hres as [Hx Hres]. apply Forall_app in Hres as [??].
      rewrite !Forall_app. split_and!; [done..|by constructor].
    + apply Forall_app. split; [done|]. by constructor.
  - destruct (ps !! k) as [w|] eqn:Hw.
    + destruct (exited w); simplify_eq. by split.
    + simplify_eq. by split.
  - done.
Qed.

Lemma pickle_inv_step_worker k s s' :
  fun_step k s = Some s' → inv s → pickle_inv s → pickle_inv s'.
Proof.
  intros Hc Hinv [Hit Hres Hrecv Hlost].
  pose proof (inv_workers _ _ _ _ Hinv) as Hgw.
  destruct s as [qi qo ps c h]. unfold ParMap.fun_step in Hc. simpl in *.
  destruct (ps !! k) as [w|] eqn:Hw; [|done].
  apply Forall_app in Hit as [Hq Hh].
  destruct w as [| |i x| |]; try done.
  - destruct qi as [|[[i|] x] qi]; simplify_eq; simpl in *.
    + apply Forall_cons in Hq as [Hx Hq].
      split; simpl; try done. apply Forall_app. split; [done|].
      apply (Forall_held_insert _ _ _ WIdle); [done..|by constructor].
    + split; simpl; try done. apply Forall_app. split; [done|].
      apply (Forall_held_insert _ _ _ WIdle); [done..|constructor].
  - pose proof (Forall_lookup_1 _ _ _ _ Hgw Hw) as Hx. simpl in Hx.
    assert (can_pickle x = true) as Hpk.
    { apply (proj1 (Forall_forall _ _) Hh (i, x)).
      apply (held_elem_of _ k (WBusy i x)); [done|]. simpl. by left. }
    destruct (f x) as [y|] eqn:Hfx; simplify_eq.
    + split; simpl; try done.
      * apply Forall_app. split; [done|].
        apply (Forall_held_insert _ _ _ (WBusy i x)); [done..|constructor].
      * apply Forall_app in Hres as [Ho Hr]. rewrite <-(assoc_L (++)).
        apply Forall_app. split; [done|]. constructor; [|done]. by exists x.
    + split; simpl; try done. apply Forall_app. split; [done|].
      apply (Forall_held_insert _ _ _ (WBusy i x)); [done..|by constructor].
Qed.

Lemma pickle_inv_reachable s : reachable s → pickle_inv s.
Proof.
  intros Hs. refine (rtc_ind_r (λ s, pickle_inv s) _ pickle_inv_init _ s Hs).
  intros s1 s2 Hs1 [?|[k ?]] IH.
  - apply (pickle_inv_step_coord s1); [done| |done]. by apply inv_reachable.
  - apply (pickle_inv_step_worker k s1); [done| |done]. by apply inv_reachable.
Qed.

(** ** What the call returns *)

Lemma retval_spec lt_val (res : list (nat * B)) :
  res.*1 ≡ₚ seq 0 N → Forall (good_res f X) res →
  Forall2 (λ x y, f x = Some y) X (retval lt_val res).
Proof.
  intros Hidx Hres. pose proof (sorted_indices lt_val res _ Hidx) as Hs.
  apply Forall2_same_length_lookup_2.
  - unfold retval. by rewrite length_fmap, <-(length_fmap fst), Hs, length_seq.
  - intros i x y Hx Hy. unfold retval in Hy.
    apply list_lookup_fmap_Some in Hy as ([j y'] & -> & Hj).
    assert (j = i) as ->.
    { assert ((sorted lt_val res).*1 !! i = Some j) as Hi
        by (by rewrite list_lookup_fmap, Hj).
      rewrite Hs in Hi. apply lookup_seq in Hi. lia. }
    assert ((i, y') ∈ res) as Hin.
    { rewrite <-(sorted_perm lt_val). by eapply list_elem_of_lookup_2. }
    rewrite Forall_forall in Hres.
    destruct (Hres _ Hin) as (x' & Hx' & Hfx). simpl in *. by simplify_eq.
Qed.

(** Once the coordinator holds [len(X)] results, nothing is left anywhere
    else. *)
Lemma inv_collected s :
  inv s → c_todo X (pc s) = [] → length (c_res (pc s)) = N →
  (c_res (pc s)).*1 ≡ₚ seq 0 N
  ∧ q_work (q_in s) = [] ∧ held (proc s) = [] ∧ q_out s = [].
Proof.
  intros [_ _ _ _ _ _ Hidx _ _ _ _ _] Htodo Hlen. rewrite Htodo in Hidx.
  pose proof (Permutation_length Hidx) as Hl.
  rewrite !length_app, !length_fmap, length_seq, Hlen in Hl. simpl in Hl.
  destruct (q_work (q_in s)), (held (proc s)), (q_out s), (lost (hist s));
    simpl in *; try lia.
  by rewrite app_nil_r in Hidx.
Qed.

Lemma inv_none_lost s :
  inv s → c_todo X (pc s) = [] → length (c_res (pc s)) = N →
  lost (hist s) = [].
Proof.
  intros [_ _ _ _ _ _ Hidx _ _ _ _ _] Htodo Hlen. rewrite Htodo in Hidx.
  pose proof (Permutation_length Hidx) as Hl.
  rewrite !length_app, !length_fmap, length_seq, Hlen in Hl. simpl in Hl.
  destruct (lost (hist s)); [done|]. simpl in Hl. lia.
Qed.

Lemma inv_returned lt_val s out :
  inv s → returned lt_val s out → seq_map f X = Some out.
Proof.
  intros Hs (res & Hpc & ->). apply mapM_Some_2.
  destruct (inv_collected s Hs) as (Hidx & _); rewrite ?Hpc; simpl; try done.
  - pose proof (inv_pc _ _ _ _ Hs) as Hc. by rewrite Hpc in Hc.
  - rewrite Hpc in Hidx. apply retval_spec; [done|].
    pose proof (inv_results _ _ _ _ Hs) as Hr. rewrite Hpc in Hr.
    by apply Forall_app in Hr as [_ ?].
Qed.

(** ** Somebody can always move, unless [f] raised or [pickle] refused *)

Lemma n_done_le (ps : list (@wstate A)) : n_done ps ≤ length ps.
Proof. induction ps as [|[]]; simpl in *; lia. Qed.

Lemma n_done_lookup (ps : list (@wstate A)) k w :
  ps !! k = Some w → w ≠ WDone → n_done ps < length ps.
Proof.
  revert k. induction ps as [|a ps IH]; intros [|k] Hk Hw; simplify_eq/=.
  - pose proof (n_done_le ps). destruct w; simpl; try done; lia.
  - specialize (IH _ Hk Hw). destruct a; simpl; lia.
Qed.

Lemma n_done_lt (ps : list (@wstate A)) :
  n_done ps < length ps → ∃ k w, ps !! k = Some w ∧ w ≠ WDone.
Proof.
  induction ps as [|a ps IH]; simpl; [lia|]. intros Hlt.
  destruct a; try (by eexists 0, _).
  destruct IH as (k & w & ? & ?); [simpl in *; lia|]. by exists (S k), w.
Qed.

Lemma held_lookup (ps : list (@wstate A)) :
  held ps ≠ [] → ∃ k w, ps !! k = Some w ∧ w_hold w ≠ [].
Proof.
  induction ps as [|a ps IH]; simpl; [done|]. intros Hne.
  destruct (w_hold a) eqn:Ha.
  - destruct IH as (k & w & ? & ?); [done|]. by exists (S k), w.
  - exists 0, a. by rewrite Ha.
Qed.

(** A started worker that has not exited moves, unless it waits at an
    empty [q_in]. *)
Lemma worker_moves k (s : state) w :
  proc s !! k = Some w → w ≠ WNew → exited w = false →
  (w = WIdle → q_in s ≠ []) →
  ∃ s', fun_step k s = Some s'.
Proof.
  intros Hw Hnew Hex Hq. unfold ParMap.fun_step. rewrite Hw.
  destruct w; try done.
  - destruct (q_in s) as [|[[i|] x] q]; [by destruct Hq|eauto..].
  - destruct (f x); eauto.
Qed.

Lemma inv_no_crash s k w :
  inv s → total_on f X → proc s !! k = Some w → w ≠ WDone → exited w = false.
Proof.
  intros Hs Htot Hw Hdone. destruct w; try done.
  pose proof (Forall_lookup_1 _ _ _ _ (inv_workers _ _ _ _ Hs) Hw) as [Hx Hfx].
  pose proof (Forall_lookup_1 _ _ _ _ Htot Hx) as [y Hy]. congruence.
Qed.

Lemma inv_all_started s k w :
  inv s → c_started nprocs (pc s) = P → proc s !! k = Some w → w ≠ WNew.
Proof.
  intros Hs Hc Hw. pose proof (inv_started _ _ _ _ Hs) as Hst.
  rewrite Hc, take_ge in Hst by (rewrite (inv_procs _ _ _ _ Hs); lia).
  apply (Forall_lookup_1 _ _ _ _ Hst Hw).
Qed.

Ltac coord_moves :=
  eexists; left; unfold ParMap.parmap_step, put_in; simpl.

(** When everything can be pickled, nothing is lost and nothing stays on
    [q_out] for good. *)
Lemma pickles_on_lost s :
  pickle_inv s → pickles_on f X → lost (hist s) = [].
Proof.
  intros [_ _ _ Hlost] Hpk. destruct (lost (hist s)) as [|i l]; [done|].
  apply Forall_cons in Hlost as [(x & Hx & Hno) _].
  destruct (Forall_lookup_1 _ _ _ _ Hpk Hx) as [? _]. congruence.
Qed.

Lemma pickles_on_get_out s :
  inv s → pickles_on f X → q_out s ≠ [] → is_Some (get_out (q_out s)).
Proof.
  intros Hs Hpk Hne. pose proof (inv_results _ _ _ _ Hs) as Hres.
  destruct (q_out s) as [|r q]; [done|]. simpl in *.
  apply Forall_cons in Hres as [(x & Hx & Hfx) _].
  destruct (Forall_lookup_1 _ _ _ _ Hpk Hx) as [_ Hy].
  rewrite (Hy _ Hfx). done.
Qed.

Lemma progress s :
  inv s → pickle_inv s → total_on f X → pickles_on f X → 0 < P ∨ N = 0 →
  is_ret s = false → ∃ s', step s s'.
Proof.
  intros Hs Hps Htot Hpk HP Hret.
  pose proof (pickles_on_lost s Hps Hpk) as Hnolost.
  pose proof (pickles_on_get_out s Hs Hpk) as Hget.
  assert (∀ k w, proc s !! k = Some w → c_started nprocs (pc s) = P →
            w ≠ WDone → (w = WIdle → q_in s ≠ []) → ∃ s', step s s') as Hmove.
  { intros k w Hw Hc Hdone Hq. destruct (worker_moves k s w) as [s' Hs']; auto.
    - by eapply inv_all_started.
    - by eapply inv_no_crash.
    - exists s'. right. by exists k. }
  destruct Hs as [Hp Hcap Hpc Hst Hnew Hj Hidx Hit Hw' Hres Hstops Hfifo].
  destruct s as [qi qo ps c h]. unfold is_ret in Hret. simpl in *.
  assert (¬ length qi < q_in_maxsize → qi ≠ []) as Hfull.
  { intros ? ->. unfold q_in_maxsize in *. simpl in *. lia. }
  destruct c as [k|[|ix todo] sent|[|k] sent|[|k] res|k res|res]; simpl in *.
  - destruct (decide (k < length ps)); coord_moves;
      [by rewrite decide_True|by rewrite decide_False].
  - coord_moves. done.
  - destruct (decide (length qi < q_in_maxsize)).
    + coord_moves. by rewrite decide_True.
    + destruct (n_done_lt ps) as (j & w & Hw & Hdone); [lia|].
      apply (Hmove j w); auto.
  - coord_moves. done.
  - destruct (decide (length qi < q_in_maxsize)).
    + coord_moves. by rewrite decide_True.
    + destruct (n_done_lt ps) as (j & w & Hw & Hdone); [lia|].
      apply (Hmove j w); auto.
  - coord_moves. done.
  - destruct (get_out qo) as [[r' qo']|] eqn:Hr'.
    { eexists. left. unfold ParMap.parmap_step. simpl. by rewrite Hr'. }
    assert (qo = []) as ->.
    { destruct qo; [done|]. destruct Hget as [? ?]; [done|congruence]. }
    destruct (held_lookup ps) as (j & w & Hw & Hhold).
    { intros Hh. rewrite Hh, Hfifo, Hnolost in Hidx by lia.
      apply Permutation_length in Hidx.
      rewrite length_seq in Hidx. simpl in Hidx.
      rewrite app_nil_r, length_fmap in Hidx. lia. }
    apply (Hmove j w); auto; by destruct w.
  - destruct (ps !! k) as [w|] eqn:Hw; [|coord_moves; by rewrite Hw].
    destruct (exited w) eqn:Hex; [coord_moves; by rewrite Hw, Hex|].
    assert (w ≠ WDone) as Hdone by (by intros ->).
    apply (Hmove k w); auto. intros _ ->.
    pose proof (n_done_lookup _ _ _ Hw Hdone). simpl in *. lia.
  - done.
Qed.

(** ** Every scheduling returns *)

Lemma total_seq_map : total_on f X → ∃ out, seq_map f X = Some out.
Proof. intros Htot. by apply mapM_is_Some. Qed.

Lemma seq_map_total out : seq_map f X = Some out → total_on f X.
Proof. intros Hout. apply mapM_is_Some. by exists out. Qed.

Lemma is_ret_true (s : state) : is_ret s = true → ∃ res, pc s = CRet res.
Proof. unfold is_ret. destruct (pc s); try done. eauto. Qed.

Lemma inv_always_returns lt_val out s :
  inv s → pickle_inv s → 0 < P ∨ N = 0 → pickles_on f X →
  seq_map f X = Some out →
  always_returns f lt_val X nprocs out s.
Proof.
  intros Hs Hps HP Hpk Hout. apply seq_map_total in Hout as Htot.
  remember (measure s) as n eqn:Hn. revert s Hs Hps Hn.
  induction (lt_wf n) as [n _ IH]. intros s Hs Hps ->.
  destruct (is_ret s) eqn:Hret.
  - apply ev_now. apply is_ret_true in Hret as [res Hres].
    exists res. split; [done|].
    assert (seq_map f X = Some (retval lt_val res)) as Hr.
    { apply (inv_returned lt_val s); [done|]. by exists res. }
    congruence.
  - apply ev_step; [by apply progress|].
    intros s' Hstep.
    apply (IH (measure s')); [|by eapply inv_step| |done].
    + by apply step_measure.
    + destruct Hstep as [?|[k ?]];
        eauto using pickle_inv_step_coord, pickle_inv_step_worker.
Qed.

(** ** The history *)

Lemma once_below_S n k :
  once_below (S n) k = (if decide (n = k) then 1 else 0) + once_below n k.
Proof. unfold once_below. repeat case_decide; lia. Qed.

Lemma hist_inv_init : hist_inv init.
Proof.
  split; simpl; try done.
  - by rewrite length_enumerate.
  - intros k. destruct (replicate P WNew !! k) as [w|] eqn:Hw; [|done].
    by apply lookup_replicate in Hw as [-> _].
Qed.

Ltac hist_norm :=
  unfold count_ev in *; simpl in *;
  rewrite ?length_app, ?once_below_S in *; simpl in *.

Lemma hist_inv_step_coord s s' :
  parmap_step s = Some s' → inv s → hist_inv s → hist_inv s'.
Proof.
  intros Hc [Hp Hcap Hpc Hst Hnew Hj Hidx Hit Hw' Hres Hstops Hfifo].
  intros [Hpw Hps Hgs Hr Hs Hjn].
  destruct s as [qi qo ps c h]. unfold ParMap.parmap_step in Hc. simpl in *.
  destruct c as [k|[|ix todo] sent|[|k] sent|[|k] res|k res|res]; simpl in *.
  - case_decide as Hk; simplify_eq.
    + split; hist_norm; try done; try lia.
      * intros k'. rewrite Hgs. destruct (decide (k = k')) as [<-|].
        -- rewrite list_lookup_insert_eq by done.
           by rewrite (lookup_drop_new _ _ Hnew Hk).
        -- by rewrite list_lookup_insert_ne.
      * intros k'. rewrite Hs, once_below_S. case_bool_decide; case_decide; simplify_eq; lia.
    + assert (k = P) as -> by lia. split; hist_norm; try done; try lia.
  - simplify_eq. split; hist_norm; try done; try lia.
  - apply put_in_Some in Hc as [Hq ->]. simpl in Hq. subst qi.
    split; hist_norm; try done; try lia.
  - simplify_eq. split; hist_norm; try done; try lia.
  - apply put_in_Some in Hc as [Hq ->]. simpl in Hq. subst qi.
    split; hist_norm; try done; try lia.
  - simplify_eq. split; hist_norm; try done; try lia.
  - destruct (get_out qo) as [[r qo']|] eqn:Hget; simplify_eq.
    split; hist_norm; try done; try lia.
  - destruct (ps !! k) as [w|] eqn:Hw.
    + destruct (exited w) eqn:Hex; simplify_eq.
      split; hist_norm; try done; try lia.
      intros k'. rewrite Hjn, once_below_S. case_bool_decide; case_decide; simplify_eq; lia.
    + simplify_eq. apply lookup_ge_None in Hw. assert (k = P) as -> by lia.
      split; hist_norm; try done; try lia.
  - done.
Qed.

Lemma hist_inv_step_worker k s s' :
  fun_step k s = Some s' → hist_inv s → hist_inv s'.
Proof.
  intros Hc [Hpw Hps Hgs Hr Hs Hjn].
  destruct s as [qi qo ps c h]. unfold ParMap.fun_step in Hc. simpl in *.
  destruct (ps !! k) as [w|] eqn:Hw; [|done].
  assert (∀ w' k', <[k := w']> ps !! k'
            = if decide (k = k') then Some w' else ps !! k') as Hlook.
  { intros w' k'. case_decide as Hk; simplify_eq.
    - by rewrite list_lookup_insert_eq by (by eapply lookup_lt_Some).
    - by rewrite list_lookup_insert_ne. }
  destruct w as [| |i x| |]; try done.
  - destruct qi as [|[[i|] x] qi]; simplify_eq;
      (split; hist_norm; try done; try lia);
      intros k'; rewrite Hgs, Hlook; case_decide; simplify_eq;
      rewrite ?Hw, ?bool_decide_eq_true_2, ?bool_decide_eq_false_2 by done; done.
  - destruct (f x) as [y|] eqn:Hfx; simplify_eq;
      (split; hist_norm; try done; try lia);
      intros k'; rewrite Hgs, Hlook; case_decide; simplify_eq;
      rewrite ?Hw; done.
Qed.

(** ** Schedules computed by [run] and [run_first] are executions *)

Lemma run_steps sch (s s' : state) :
  run f X nprocs sch s = Some s' → rtc step s s'.
Proof.
  revert s. induction sch as [|a sch IH]; intros s Hrun; simplify_eq/=.
  - done.
  - destruct (act f X nprocs a s) as [s1|] eqn:Ha; simplify_eq/=.
    apply rtc_l with s1; [|by apply IH].
    destruct a; simpl in Ha; [by left|right; eauto].
Qed.

Lemma first_enabled_step ks (s s' : state) :
  first_enabled f X nprocs ks s = Some s' → step s s'.
Proof.
  induction ks as [|k ks IH]; simpl; [by left|].
  destruct (fun_step k s) eqn:Hk; [|done]. intros [= <-]. right. eauto.
Qed.

Lemma run_first_steps ks fuel (s : state) :
  rtc step s (run_first f X nprocs ks fuel s).
Proof.
  revert s. induction fuel as [|n IH]; intros s; simpl; [done|].
  destruct (first_enabled f X nprocs ks s) as [s'|] eqn:Hs; [|done].
  apply rtc_l with s'; [|done]. by eapply first_enabled_step.
Qed.

Lemma run_first_reachable ks fuel : reachable (run_first f X nprocs ks fuel init).
Proof. apply run_first_steps. Qed.

Lemma run_then_reachable sch ks fuel :
  reachable (run_then f X nprocs sch ks fuel init).
Proof.
  unfold ParMap.reachable, run_then.
  destruct (run f X nprocs sch init) as [s|] eqn:Hrun; [|done].
  etrans; [by apply (run_steps sch)|]. apply run_first_steps.
Qed.

Lemma hist_inv_reachable s : reachable s → hist_inv s.
Proof.
  intros Hs. refine (rtc_ind_r (λ s, hist_inv s) _ hist_inv_init _ s Hs).
  intros s1 s2 Hs1 [?|[k ?]] IH.
  - apply (hist_inv_step_coord s1); [done| |done]. by apply inv_reachable.
  - by apply (hist_inv_step_worker k s1).
Qed.

(** ** The result of [parmap] *)

Lemma range_len_pos : (1 ≤ nprocs)%Z → 0 < P.
Proof. unfold range_len. lia. Qed.

Lemma returned_seq_map lt_val s out :
  reachable s → returned lt_val s out → seq_map f X = Some out.
Proof. intros Hs. apply inv_returned. by apply inv_reachable. Qed.

Lemma seq_map_lookup out i x :
  seq_map f X = Some out → X !! i = Some x → f x = out !! i.
Proof.
  intros Hout%mapM_Some_1 Hx.
  destruct (Forall2_lookup_l _ _ _ _ _ Hout Hx) as (y & Hy & Hfx). congruence.
Qed.

Lemma seq_map_length out : seq_map f X = Some out → length out = N.
Proof. intros Hout%mapM_Some_1. by apply Forall2_length in Hout. Qed.

(** ** Calls that never return *)

Lemma step_dec (s : state) : (∃ s', step s s') ∨ (∀ s', ¬ step s s').
Proof.
  destruct (parmap_step s) as [s'|] eqn:Hc; [left; exists s'; by left|].
  assert (∀ n, (∃ k s', fun_step k s = Some s')
             ∨ (∀ k, k < n → fun_step k s = None)) as Hn.
  { induction n as [|n [?|IH]]; [right; lia|by left|].
    destruct (fun_step n s) as [s'|] eqn:Hn; [left; eauto|].
    right. intros k Hk. destruct (decide (k = n)) as [->|]; [done|].
    apply IH. lia. }
  destruct (Hn (length (proc s))) as [(k & s' & Hk)|Hnone].
  - left. exists s'. right. eauto.
  - right. intros s' [?|[k Hk]]; [congruence|].
    destruct (decide (k < length (proc s))) as [Hlt|Hge].
    + rewrite Hnone in Hk by done. done.
    + unfold ParMap.fun_step in Hk. rewrite lookup_ge_None_2 in Hk by lia. done.
Qed.

Lemma never_returns_hangs (s : state) :
  (∀ s', rtc step s s' → is_ret s' = false) → always_hangs f X nprocs s.
Proof.
  remember (measure s) as n eqn:Hn. revert s Hn.
  induction (lt_wf n) as [n _ IH]. intros s -> Hnever.
  destruct (step_dec s) as [Hstep|Hstuck].
  - apply ev_step; [done|]. intros s' Hs'.
    apply (IH (measure s')); [by apply step_measure|done|].
    intros s'' Hs''. apply Hnever. by apply rtc_l with s'.
  - apply ev_now. split; [|done]. by apply Hnever.
Qed.

(** An index that never gets among the results keeps the coordinator
    short of [len(X)] results. *)
Lemma inv_short s i :
  inv s → i < N → (∀ y, (i, y) ∉ c_res (pc s)) → length (c_res (pc s)) < N.
Proof.
  intros Hs Hlt Hnot.
  pose proof (inv_idx _ _ _ _ Hs) as Hidx.
  pose proof (Permutation_length Hidx) as Hlen.
  rewrite !length_app, !length_fmap, length_seq in Hlen.
  assert (i ∈ seq 0 N) as Hi by (apply elem_of_seq; lia).
  rewrite <-Hidx in Hi. rewrite !elem_of_app in Hi.
  assert (∀ {T} (l : list (nat * T)), i ∈ l.*1 → 0 < length l) as Hpos.
  { intros T [|??]; simpl; [by intros ?%elem_of_nil|lia]. }
  destruct Hi as [Hi|[Hi|[Hi|[Hi|[Hi|Hi]]]]].
  - apply Hpos in Hi. lia.
  - apply Hpos in Hi. lia.
  - apply Hpos in Hi. lia.
  - apply Hpos in Hi. lia.
  - apply list_elem_of_fmap in Hi as ([j y] & -> & Hin). by destruct (Hnot y).
  - destruct (lost (hist s)); [by apply elem_of_nil in Hi|]. simpl in Hlen. lia.
Qed.

Lemma short_never_returns s :
  inv s → length (c_res (pc s)) < N → is_ret s = false.
Proof.
  intros Hs Hlt. pose proof (inv_pc _ _ _ _ Hs) as Hpc. unfold is_ret.
  destruct (pc s); simpl in *; try done. lia.
Qed.

(** An element or a value that cannot be pickled is never received. *)
Lemma inv_undelivered s i x :
  inv s → pickle_inv s → X !! i = Some x →
  can_pickle x = false ∨ (∃ y, f x = Some y ∧ can_pickle y = false) →
  length (c_res (pc s)) < N.
Proof.
  intros Hs [_ Hsent Hrecv _] Hx Hno.
  apply (inv_short s i); [done|by eapply lookup_lt_Some|].
  intros y Hin.
  pose proof (inv_results _ _ _ _ Hs) as Hres.
  apply Forall_app in Hres as [_ Hres]. apply Forall_app in Hsent as [_ Hsent].
  rewrite Forall_forall in Hres, Hsent, Hrecv.
  destruct (Hres _ Hin) as (x1 & Hx1 & Hy).
  destruct (Hsent _ Hin) as (x2 & Hx2 & Hpk). specialize (Hrecv _ Hin).
  simpl in *. simplify_eq.
  destruct Hno as [?|(y' & ? & ?)]; [congruence|]. simplify_eq. congruence.
Qed.

Lemma undelivered_hangs i x :
  X !! i = Some x →
  can_pickle x = false ∨ (∃ y, f x = Some y ∧ can_pickle y = false) →
  never_returns f X nprocs ∧ always_hangs f X nprocs init.
Proof.
  intros Hx Hno.
  assert (∀ s, reachable s → is_ret s = false) as Hnever.
  { intros s Hs. apply short_never_returns; [by apply inv_reachable|].
    apply (inv_undelivered s i x); auto using inv_reachable, pickle_inv_reachable. }
  split; [done|]. apply never_returns_hangs. intros s Hs. by apply Hnever.
Qed.


(** C8. Two calls with the same [f], [X] and [nprocs] that return, return
    the same list, however the two executions were scheduled. *)
Theorem parmap_deterministic lt_val s1 s2 out1 out2 :
  reachable s1 → returned lt_val s1 out1 →
  reachable s2 → returned lt_val s2 out2 →
  out1 = out2.
Proof.
  intros Hs1 Hr1 Hs2 Hr2.
  pose proof (returned_seq_map _ _ _ Hs1 Hr1).
  pose proof (returned_seq_map _ _ _ Hs2 Hr2). congruence.
Qed.

(** ** When [f] raises *)

Lemma inv_missing_result s i x :
  inv s → X !! i = Some x → f x = None →
  (∀ y, (i, y) ∉ q_out s ++ c_res (pc s))
  ∧ length (c_res (pc s)) < N.
Proof.
  intros Hs Hx Hfx.
  assert (∀ y, (i, y) ∉ q_out s ++ c_res (pc s)) as Hnot.
  { intros y Hin. pose proof (inv_results _ _ _ _ Hs) as Hres.
    rewrite Forall_forall in Hres.
    destruct (Hres _ Hin) as (x' & Hx' & Hy). simpl in *. congruence. }
  split; [done|].
  apply (inv_short s i); [done|by eapply lookup_lt_Some|].
  intros y Hin. destruct (Hnot y). apply elem_of_app. by right.
Qed.

(** C3. When [f] raises on some [X[i]], the worker that holds [(i, X[i])]
    dies without putting anything on [q_out], no result for [i] ever
    exists, the coordinator never holds [len(X)] results and never gets to
    its [return], and every scheduling ends with the whole pool blocked. *)
Theorem parmap_hangs_when_f_raises i x :
  X !! i = Some x → f x = None →
  (∀ k (s : state), proc s !! k = Some (WBusy i x) →
     ∃ s', fun_step k s = Some s'
         ∧ proc s' !! k = Some (WDead i x)
         ∧ q_out s' = q_out s
         ∧ fun_step k s' = None)
  ∧ (∀ s y, reachable s → (i, y) ∉ q_out s ++ c_res (pc s))
  ∧ (∀ s, reachable s → length (c_res (pc s)) < length X ∧ is_ret s = false)
  ∧ always_hangs f X nprocs init.
Proof.
  intros Hx Hfx.
  assert (∀ s, reachable s → length (c_res (pc s)) < N ∧ is_ret s = false) as Hnever.
  { intros s Hs%inv_reachable.
    destruct (inv_missing_result s i x Hs Hx Hfx) as [_ Hlt]. split; [done|].
    pose proof (inv_pc _ _ _ _ Hs) as Hpc. unfold is_ret.
    destruct (pc s); simpl in *; try done. lia. }
  split_and!.
  - intros k s Hk. unfold ParMap.fun_step. rewrite Hk, Hfx. eexists.
    split; [done|]. simpl.
    rewrite list_lookup_insert_eq by (by eapply lookup_lt_Some). done.
  - intros s y Hs%inv_reachable.
    by destruct (inv_missing_result s i x Hs Hx Hfx) as [? _].
  - done.
  - apply never_returns_hangs. intros s Hs. by apply Hnever.
Qed.

(** ** The worker loop on its own *)


(** ** No workers *)

Lemma no_workers_no_results s :
  reachable s → length (proc s) = 0 → q_out s = [] ∧ c_res (pc s) = [].
Proof.
  intros Hs.
  refine (rtc_ind_r (λ s, length (proc s) = 0 → q_out s = [] ∧ c_res (pc s) = [])
            _ _ _ s Hs); [done|].
  clear s Hs. intros s s' _ Hstep IH Hlen.
  destruct s as [qi qo ps c h]. destruct Hstep as [Hc|[k Hw]].
  - unfold ParMap.parmap_step, put_in in Hc. simpl in *.
    destruct c; repeat case_match; simplify_eq/=;
      rewrite ?length_insert in Hlen; destruct (IH Hlen); by simplify_eq.
  - unfold ParMap.fun_step in Hw. simpl in *.
    destruct (ps !! k) as [w|] eqn:Hk; [|done].
    apply lookup_lt_Some in Hk.
    repeat case_match; simplify_eq/=; rewrite length_insert in Hlen; lia.
Qed.

(** C4, as the code has it.  [parmap] checks nothing: called with
    [nprocs < 1] it creates no process and starts none; for an empty [X]
    every scheduling returns the empty list, and for a non-empty [X] the
    call never returns and ends up blocked. *)
Theorem parmap_without_workers lt_val :
  (nprocs < 1)%Z →
  (∀ s, reachable s →
     proc s = [] ∧ ∀ k, count_ev (is_start k) (hist s) = 0)
  ∧ (X = [] → always_returns f lt_val X nprocs [] init)
  ∧ (X ≠ [] →
     (∀ s, reachable s → is_ret s = false) ∧ always_hangs f X nprocs init).
Proof.
  intros HP. assert (P = 0) as HP0 by (unfold range_len; lia).
  split_and!.
  - intros s Hs. pose proof (inv_reachable s Hs) as Hinv.
    pose proof (inv_procs _ _ _ _ Hinv) as Hlen. rewrite HP0 in Hlen.
    split; [by apply nil_length_inv|].
    intros k. rewrite (h_start _ _ _ (hist_inv_reachable s Hs)).
    pose proof (inv_pc _ _ _ _ Hinv) as Hpc. unfold once_below.
    destruct (pc s); simpl in *; case_decide; lia.
  - intros HX.
    apply inv_always_returns; [apply inv_init|apply pickle_inv_init| | |].
    + right. by rewrite HX.
    + rewrite HX. constructor.
    + by rewrite HX.
  - intros HX.
    assert (∀ s, reachable s → is_ret s = false) as Hnever.
    { intros s Hs. pose proof (inv_reachable s Hs) as Hinv.
      pose proof (inv_procs _ _ _ _ Hinv) as Hlen. rewrite HP0 in Hlen.
      destruct (no_workers_no_results s Hs Hlen) as [_ Hres].
      pose proof (inv_pc _ _ _ _ Hinv) as Hpc. unfold is_ret.
      destruct (pc s); simpl in *; try done. subst.
      destruct X; simpl in *; done. }
    split; [done|]. apply never_returns_hangs. intros s Hs. by apply Hnever.
Qed.

(** ** The pool at [return] *)

Lemma held_nil_lookup (ps : list (@wstate A)) k w :
  held ps = [] → ps !! k = Some w → w_hold w = [].
Proof.
  revert k. induction ps as [|a ps IH]; intros [|k] Hnil Hk; simplify_eq/=.
  - by apply app_eq_nil in Hnil as [? _].
  - apply app_eq_nil in Hnil as [_ ?]. eauto.
Qed.

Lemma n_done_all (ps : list (@wstate A)) :
  (∀ k w, ps !! k = Some w → w = WDone) → n_done ps = length ps.
Proof.
  induction ps as [|a ps IH]; intros Hall; simpl; [done|].
  rewrite (Hall 0 a) by done. rewrite IH; [done|].
  intros k w Hk. by apply (Hall (S k)).
Qed.

Lemma q_in_nil (q : list (@item A)) : q_work q = [] → q_stops q = 0 → q = [].
Proof. destruct q as [|[[i|] x] q]; simpl; done. Qed.

Lemma inv_at_return s res :
  inv s → pc s = CRet res →
  (∀ k w, proc s !! k = Some w → w = WDone) ∧ q_in s = [] ∧ q_out s = [].
Proof.
  intros Hs Hpc.
  destruct (inv_collected s Hs) as (_ & Hwork & Hheld & Hout).
  { by rewrite Hpc. }
  { pose proof (inv_pc _ _ _ _ Hs) as Hc. by rewrite Hpc in Hc |- *. }
  assert (∀ k w, proc s !! k = Some w → w = WDone) as Hdone.
  { intros k w Hw. pose proof (held_nil_lookup _ _ _ Hheld Hw) as Hhold.
    pose proof (inv_joined _ _ _ _ Hs) as Hj. rewrite Hpc in Hj. simpl in Hj.
    rewrite take_ge in Hj by (rewrite (inv_procs _ _ _ _ Hs); lia).
    pose proof (Forall_lookup_1 _ _ _ _ Hj Hw) as Hex.
    by destruct w. }
  split_and!; [done| |done].
  apply q_in_nil; [done|].
  pose proof (inv_stops _ _ _ _ Hs) as Hst. rewrite Hpc in Hst. simpl in Hst.
  rewrite (n_done_all _ Hdone), (inv_procs _ _ _ _ Hs) in Hst. lia.
Qed.

Lemma eventually_reachable (Q Q' : state → Prop) s :
  reachable s → (∀ s', reachable s' → Q s' → Q' s') →
  eventually f X nprocs Q s → eventually f X nprocs Q' s.
Proof.
  intros Hs HQ Hev. induction Hev as [s HQs|s Hstep _ IH].
  - apply ev_now. by apply HQ.
  - apply ev_step; [done|]. intros s' Hs'. apply IH; [done|].
    by eapply rtc_r.
Qed.

Lemma eventually_exists (Q : state → Prop) s :
  eventually f X nprocs Q s → ∃ s', rtc step s s' ∧ Q s'.
Proof.
  induction 1 as [s HQ|s [s1 Hs1] _ IH]; [by exists s|].
  destruct (IH s1 Hs1) as (s' & Hs' & HQ). exists s'. split; [|done].
  by apply rtc_l with s1.
Qed.

Lemma never_returns_not_always lt_val out :
  never_returns f X nprocs → ¬ always_returns f lt_val X nprocs out init.
Proof.
  intros Hnever (s & Hs & res & Hpc & _)%eventually_exists.
  specialize (Hnever s Hs). unfold is_ret in Hnever. by rewrite Hpc in Hnever.
Qed.

Lemma returned_shut_down lt_val s out :
  reachable s → returned lt_val s out → shut_down nprocs s.
Proof.
  intros Hs (res & Hpc & _).
  pose proof (inv_reachable s Hs) as Hinv.
  destruct (hist_inv_reachable s Hs) as [_ Hps Hgs _ _ Hjn].
  destruct (inv_at_return s res Hinv Hpc) as (Hdone & Hq & _).
  pose proof (inv_procs _ _ _ _ Hinv) as Hlen.
  rewrite Hpc in *. simpl in *.
  split_and!; [unfold range_len in *; lia..| |done].
  intros k Hk.
  destruct (lookup_lt_is_Some_2 (proc s) k) as [w Hw].
  { unfold range_len in *. lia. }
  rewrite (Hdone k w Hw) in Hw. rewrite Hgs, Hjn, Hw.
  unfold once_below. rewrite decide_True by (unfold range_len; lia). done.
Qed.



End parmap_facts.

(** ** Particular calls *)

Section parmap_calls.
Context {A B : Type} `{!Pickle A, !Pickle B}.
Variable f : py A → option B.
Variable lt_val : B → B → bool.

Import ParMap.



End parmap_calls.

(** ** [cost_normalization]: what is written and what is allocated *)

Section cost_facts.
Context {F : Type}.
Variable fdiv : F → F → F.
Variable fadd1 : F → F.
Variable flog : F → F.
Variable np_median : list (list F) → F.
Variable np_max : list (list F) → option F.

Import CostNorm.

Local Abbreviation cost_normalization :=
  (CostNorm.cost_normalization fdiv fadd1 flog np_median np_max).

Lemma ufunc_spec g (h0 h : gmap nat (list (list F))) C m :
  h0 ⊆ h → h !! C = Some m →
  ∃ h' C', ufunc g h C = Some (h', C')
         ∧ (C' ∉ dom h0)
         ∧ h' !! C' = Some (map_matrix g m)
         ∧ h0 ⊆ h'.
Proof.
  intros Hsub HC. unfold ufunc. rewrite HC. simpl.
  pose proof (is_fresh (dom h)) as Hfresh.
  eexists _, _. split_and!; [done| |by rewrite lookup_insert_eq|].
  - intros Hin. apply Hfresh. by apply (subseteq_dom h0 h).
  - etrans; [done|]. apply insert_subseteq. by apply not_elem_of_dom.
Qed.


End cost_facts.

(** ** The theorems at concrete calls *)

Import ParMap.

Lemma total_square_X_A : total_on square X_A.
Proof. repeat constructor; eexists; reflexivity. Qed.

Lemma pickles_square_X_A : pickles_on square X_A.
Proof. apply Forall_forall. intros x _. split; [by destruct x|done]. Qed.

Lemma total_is_none_X_N : total_on is_none X_N.
Proof. repeat constructor; eexists; reflexivity. Qed.

Lemma pickles_is_none_X_N : pickles_on is_none X_N.
Proof. apply Forall_forall. intros x _. split; [by destruct x|done]. Qed.

Lemma reachable_end_C : reachable square X_C 3 end_C.
Proof. apply run_first_reachable. Qed.

Lemma make_closure_unpicklable :
  can_pickle (PyObj 1%Z : py Z) = false
  ∨ ∃ y, make_closure (PyObj 1%Z) = Some y ∧ can_pickle y = false.
Proof. right. by exists VFun. Qed.

Lemma X_F_unpicklable :
  can_pickle (PyObj VFun) = false
  ∨ ∃ y, zero (PyObj VFun) = Some y ∧ can_pickle y = false.
Proof. by left. Qed.

Lemma reachable_end_01 : reachable square X_A 2 end_01.
Proof. apply run_first_reachable. Qed.

Lemma reachable_end_10 : reachable square X_A 2 end_10.
Proof. apply run_then_reachable. Qed.

Lemma returned_end_01 : returned Z.ltb end_01 [1; 4; 9; 16; 25]%Z.
Proof.
  exists [(0, 1%Z); (1, 4%Z); (2, 9%Z); (3, 16%Z); (4, 25%Z)].
  split; vm_compute; reflexivity.
Qed.

(** The results arrived as 1, 0, 2, 3, 4. *)
Lemma returned_end_10 : returned Z.ltb end_10 [1; 4; 9; 16; 25]%Z.
Proof.
  exists [(1, 4%Z); (0, 1%Z); (2, 9%Z); (3, 16%Z); (4, 25%Z)].
  split; vm_compute; reflexivity.
Qed.




(** Scenario C: [f] raises on [X[2]] only, three workers. *)
Lemma parmap_hangs_witness :
  X_C !! 2 = Some PyNone ∧ square PyNone = None
  ∧ (∀ k (s : state), proc s !! k = Some (WBusy 2 PyNone) →
       ∃ s', fun_step square k s = Some s'
           ∧ proc s' !! k = Some (WDead 2 PyNone)
           ∧ q_out s' = q_out s
           ∧ fun_step square k s' = None)
  ∧ (∀ s y, reachable square X_C 3 s → (2, y) ∉ q_out s ++ c_res (pc s))
  ∧ (∀ s, reachable square X_C 3 s →
       length (c_res (pc s)) < length X_C ∧ is_ret s = false)
  ∧ always_hangs square X_C 3 (parmap_init 3).
Proof.
  split; [reflexivity|]. split; [reflexivity|].
  apply (parmap_hangs_when_f_raises square X_C 3 2 PyNone); reflexivity.
Defined.

(** C4 as stated fails: with [nprocs = 0] and an empty [X] the call is
    not refused, it gets to [return]. *)
Lemma parmap_zero_workers_counterexample : ¬ never_returns square [] 0.
Proof.
  intros Hnever.
  specialize (Hnever (run_first square [] 0 [] 10 (parmap_init 0))
                (run_first_reachable square [] 0 [] 10)).
  vm_compute in Hnever. discriminate.
Qed.

Lemma parmap_without_workers_witness :
  (0 < 1)%Z
  ∧ (∀ s, reachable square X_A 0 s →
       proc s = [] ∧ ∀ k, count_ev (is_start k) (hist s) = 0)
  ∧ (X_A = [] → always_returns square Z.ltb X_A 0 [] (parmap_init 0))
  ∧ (X_A ≠ [] →
     (∀ s, reachable square X_A 0 s → is_ret s = false)
     ∧ always_hangs square X_A 0 (parmap_init 0)).
Proof.
  split; [lia|]. apply (parmap_without_workers square X_A 0 Z.ltb). lia.
Defined.






(** In [end_01] the results arrived in order, in [end_10] they did not. *)
Lemma parmap_deterministic_witness :
  reachable square X_A 2 end_01
  ∧ returned Z.ltb end_01 [1; 4; 9; 16; 25]%Z
  ∧ reachable square X_A 2 end_10
  ∧ returned Z.ltb end_10 (retval Z.ltb (c_res (pc end_10)))
  ∧ [1; 4; 9; 16; 25]%Z = retval Z.ltb (c_res (pc end_10)).
Proof.
  assert (returned Z.ltb end_10 (retval Z.ltb (c_res (pc end_10)))) as Hret.
  { eexists. split; [vm_compute|]; reflexivity. }
  split; [exact reachable_end_01|]. split; [exact returned_end_01|].
  split; [exact reachable_end_10|]. split; [exact Hret|].
  exact (parmap_deterministic square X_A 2 Z.ltb end_01 end_10 _ _
           reachable_end_01 returned_end_01 reachable_end_10 Hret).
Defined.



(** ** More about the pool: what is put, what is evaluated, how long it runs *)

Section parmap_more.
Context {A B : Type} `{!Pickle A, !Pickle B}.
Variable f : py A → option B.
Variable X : list (py A).
Variable nprocs : Z.

Local Abbreviation state := (@ParMap.state A B).
Local Abbreviation step := (ParMap.step f X nprocs).
Local Abbreviation init := (@ParMap.parmap_init A B nprocs).
Local Abbreviation reachable := (ParMap.reachable f X nprocs).
Local Abbreviation P := (range_len nprocs).
Local Abbreviation N := (length X).

Lemma put_log_inv s :
  reachable s →
  reverse (put_log (hist s)) ++ (work <$> c_todo X (pc s))
    ++ replicate (c_left nprocs (pc s)) sentinel
  = all_puts X nprocs.
Proof.
  intros Hs.
  refine (rtc_ind_r
            (λ s, reverse (put_log (hist s)) ++ (work <$> c_todo X (pc s))
                    ++ replicate (c_left nprocs (pc s)) sentinel
                  = all_puts X nprocs) _ _ _ s Hs); [reflexivity|].
  clear s Hs. intros s s' _ Hstep IH.
  destruct s as [qi qo ps c h]. destruct Hstep as [Hc|[k Hw]].
  - unfold ParMap.parmap_step, put_in in Hc. simpl in *.
    destruct c; repeat case_match; simplify_eq/=; try done.
    all: by rewrite reverse_cons, <-!(assoc_L (++)).
  - unfold ParMap.fun_step in Hw. simpl in *.
    repeat case_match; simplify_eq/=; done.
Qed.

(** X1. What the coordinator has put on [q_in] is at any time an initial
    part of [(0, X[0]), (1, X[1]), ...] followed by [nprocs] sentinels, and
    is all of it once the call is at its [return]: the items go out in
    index order, and no sentinel goes out before the last item. *)
Theorem parmap_puts_in_order :
  (∀ s, reachable s → reverse (put_log (hist s)) `prefix_of` all_puts X nprocs)
  ∧ (∀ s, reachable s → is_ret s = true →
       reverse (put_log (hist s)) = all_puts X nprocs).
Proof.
  split.
  - intros s Hs. rewrite <-(put_log_inv s Hs). by eexists.
  - intros s Hs [res Hres]%is_ret_true. rewrite <-(put_log_inv s Hs), Hres.
    simpl. by rewrite app_nil_r.
Qed.

Lemma tuple_lt_irrel (lt1 lt2 : B → B → bool) (a b : nat * B) :
  a.1 ≠ b.1 → tuple_lt lt1 a b = tuple_lt lt2 a b.
Proof. intros Hab. unfold tuple_lt. by rewrite !decide_False. Qed.

Lemma insert_sorted_irrel (lt1 lt2 : B → B → bool) a l :
  a.1 ∉ l.*1 → insert_sorted lt1 a l = insert_sorted lt2 a l.
Proof.
  induction l as [|b l IH]; simpl; [done|].
  intros [Hab Hl]%not_elem_of_cons.
  rewrite (tuple_lt_irrel lt1 lt2 b a) by done. by rewrite IH.
Qed.

Lemma sorted_irrel (lt1 lt2 : B → B → bool) l :
  NoDup l.*1 → sorted lt1 l = sorted lt2 l.
Proof.
  induction l as [|a l IH]; simpl; [done|].
  intros [Ha Hl]%NoDup_cons. rewrite <-(IH Hl).
  apply insert_sorted_irrel. by rewrite sorted_perm.
Qed.

(** X2. In every reachable state, also of a call that [f] makes hang, the
    results on [q_out] and those already collected have pairwise distinct
    indices and each is [(i, f(X[i]))]; so [sorted] never has to compare
    two values of [f], and the list it yields does not depend on how
    those values compare. *)
Theorem parmap_results_sound s :
  reachable s →
  NoDup (q_out s ++ c_res (pc s)).*1
  ∧ (∀ i y, (i, y) ∈ q_out s ++ c_res (pc s) →
       ∃ x, X !! i = Some x ∧ f x = Some y)
  ∧ (∀ lt1 lt2, sorted lt1 (c_res (pc s)) = sorted lt2 (c_res (pc s))).
Proof.
  intros Hs%inv_reachable.
  assert (NoDup (q_out s ++ c_res (pc s)).*1) as Hnd.
  { pose proof (inv_idx _ _ _ _ Hs) as Hidx.
    assert (NoDup (seq 0 N)) as Hseq by apply NoDup_seq.
    rewrite <-Hidx in Hseq. rewrite fmap_app.
    do 3 apply NoDup_app in Hseq as (_ & _ & Hseq).
    rewrite (assoc_L (++)) in Hseq. by apply NoDup_app in Hseq as (? & _ & _). }
  split_and!; [done| |].
  - intros i y Hin. pose proof (inv_results _ _ _ _ Hs) as Hres.
    rewrite Forall_forall in Hres. apply (Hres _ Hin).
  - intros lt1 lt2. apply sorted_irrel.
    rewrite fmap_app in Hnd. by apply NoDup_app in Hnd as (_ & _ & ?).
Qed.

Lemma occ_seq i a n :
  occ i (seq a n) = if decide (a ≤ i < a + n) then 1 else 0.
Proof.
  revert a. induction n as [|n IH]; intros a; unfold occ in *; simpl.
  - case_decide; lia.
  - rewrite IH. case_bool_decide; repeat case_decide; lia.
Qed.

Lemma n_dead_held i (ps : list (@wstate A)) :
  n_dead i ps ≤ occ i (held ps).*1.
Proof.
  unfold n_dead, occ, held.
  induction ps as [|w ps IH]; simpl; [done|].
  rewrite fmap_app, sum_list_with_app. destruct w; simpl; lia.
Qed.

Lemma occ_get_out i (q : list (nat * B)) r q' :
  get_out q = Some (r, q') →
  occ i q.*1 = (if bool_decide (r.1 = i) then 1 else 0) + occ i q'.*1.
Proof.
  intros (_ & Hperm & _)%get_out_Some. unfold occ. by rewrite Hperm.
Qed.

Lemma eval_inv s i :
  reachable s →
  count_ev (is_eval i) (hist s)
  = occ i (q_out s).*1 + occ i (c_res (pc s)).*1 + n_dead i (proc s).
Proof.
  intros Hs.
  refine (rtc_ind_r
            (λ s, reachable s →
                  count_ev (is_eval i) (hist s)
                  = occ i (q_out s).*1 + occ i (c_res (pc s)).*1
                    + n_dead i (proc s)) _ _ _ s Hs Hs).
  { intros _. unfold n_dead. simpl. induction P; simpl; auto. }
  clear s Hs. intros s s' Hs Hstep IH _. specialize (IH Hs).
  pose proof (inv_reachable f X nprocs s Hs) as Hinv.
  destruct s as [qi qo ps c h]. unfold count_ev, occ, n_dead in *.
  destruct Hstep as [Hc|[k Hw]].
  - unfold ParMap.parmap_step, put_in in Hc. simpl in *.
    destruct c; repeat case_match; simplify_eq/=;
      try match goal with H : get_out _ = Some _ |- _ =>
            apply (occ_get_out i) in H; unfold occ in H; rewrite H in IH end;
      rewrite ?fmap_app, ?sum_list_with_app; simpl; try lia.
    pose proof (inv_new _ _ _ _ Hinv) as Hnew. simpl in Hnew.
    match goal with Hk : _ < length ps |- _ =>
      pose proof (lookup_drop_new ps _ Hnew Hk) as Hk' end.
    match goal with |- context [<[?k := ?w']> ps] =>
      pose proof (sum_list_with_insert
        (λ w, if w is WDead j _ then if bool_decide (j = i) then 1 else 0 else 0)
        ps k _ w' Hk') as Hins end.
    simpl in Hins. lia.
  - unfold ParMap.fun_step in Hw. simpl in *.
    destruct (ps !! k) as [w|] eqn:Hk; [|done].
    repeat case_match; simplify_eq/=;
      rewrite ?fmap_app, ?sum_list_with_app; simpl;
      match goal with |- context [<[?k := ?w']> ps] =>
        pose proof (sum_list_with_insert
          (λ w, if w is WDead j _ then if bool_decide (j = i) then 1 else 0 else 0)
          ps k _ w' Hk) as Hins end;
      simpl in Hins; lia.
Qed.

(** X3. No element of [X] is evaluated twice: in every reachable state the
    workers have completed at most one call of [f] on [X[i]], none for an
    index outside [X], and exactly one for every index once the call is
    at its [return]. *)
Theorem parmap_evaluates_once s i :
  reachable s →
  count_ev (is_eval i) (hist s) ≤ 1
  ∧ (length X ≤ i → count_ev (is_eval i) (hist s) = 0)
  ∧ (is_ret s = true → i < length X → count_ev (is_eval i) (hist s) = 1).
Proof.
  intros Hs. pose proof (inv_reachable f X nprocs s Hs) as Hinv.
  pose proof (inv_idx _ _ _ _ Hinv) as Hidx.
  assert (occ i ((c_todo X (pc s)).*1 ++ (q_work (q_in s)).*1
                   ++ (held (proc s)).*1 ++ (q_out s).*1 ++ (c_res (pc s)).*1
                   ++ lost (hist s))
          = if decide (0 ≤ i < 0 + N) then 1 else 0) as Hocc.
  { rewrite <-occ_seq. unfold occ. by rewrite Hidx. }
  pose proof (n_dead_held i (proc s)) as Hdead.
  rewrite (eval_inv s i Hs).
  unfold occ in *. rewrite !sum_list_with_app in Hocc.
  split_and!.
  - case_decide; lia.
  - intros Hi. rewrite decide_False in Hocc by lia. lia.
  - intros [res Hres]%is_ret_true Hi. rewrite decide_True in Hocc by lia.
    destruct (inv_at_return f X nprocs s res Hinv Hres) as (Hdone & _ & Hout).
    assert (length (c_res (pc s)) = N) as Hlen.
    { pose proof (inv_pc _ _ _ _ Hinv) as Hc. by rewrite Hres in Hc |- *. }
    destruct (inv_collected f X nprocs s Hinv) as (_ & Hwork & Hheld & _);
      [by rewrite Hres|done|].
    assert (lost (hist s) = []) as Hlost.
    { apply (inv_none_lost f X nprocs s Hinv); [by rewrite Hres|done]. }
    rewrite Hlost in Hocc.
    rewrite Hres, Hwork, Hheld, Hout in Hocc. rewrite Hheld in Hdead.
    rewrite Hres, Hout. simpl in *. lia.
Qed.

Lemma steps_measure n (s s' : state) :
  steps f X nprocs n s s' →
  n + ParMap.measure X nprocs s' ≤ ParMap.measure X nprocs s.
Proof.
  induction 1 as [|n s1 s2 s3 Hstep _ IH]; [lia|].
  apply (step_measure f X nprocs) in Hstep. lia.
Qed.

Lemma measure_init : ParMap.measure X nprocs init = 5 * N + 6 * P + 5.
Proof.
  unfold ParMap.measure. simpl. rewrite length_replicate.
  assert (∀ n, sum_list_with w_weight (replicate n (@WNew A)) = 0) as ->
    by (induction n; simpl; auto).
  lia.
Qed.

Lemma run_nsteps sch (s s' : state) :
  run f X nprocs sch s = Some s' → steps f X nprocs (length sch) s s'.
Proof.
  revert s. induction sch as [|a sch IH]; intros s Hrun; simplify_eq/=.
  - constructor.
  - destruct (act f X nprocs a s) as [s1|] eqn:Ha; simplify_eq/=.
    apply nsteps_l with s1; [|by apply IH].
    destruct a; simpl in Ha; [by left|right; eauto].
Qed.


End parmap_more.

(** ** [clean_zeros]: shapes and fixed points *)

Section clean_facts.
Context {F : Type}.
Variable gt0 : F → bool.

Import CleanZeros.

Local Abbreviation clean_zeros := (CleanZeros.clean_zeros gt0).

Lemma length_select {T} (mask : list bool) (l : list T) :
  length mask = length l → length (select mask l) = length (select mask mask).
Proof.
  revert l. induction mask as [|b mask IH]; intros [|x l] Hlen;
    simplify_eq/=; [done|]. destruct b; simpl; auto.
Qed.

Lemma select_all_true {T} (mask : list bool) (l : list T) :
  Forall (λ b, b = true) mask → length mask = length l → select mask l = l.
Proof.
  intros Hall. revert l. induction Hall as [|b mask -> _ IH]; intros [|x l] Hlen;
    simplify_eq/=; [done|]. by rewrite IH.
Qed.

Lemma select_gt0 (a : list F) :
  Forall (λ x, gt0 x = true) (select (gt0 <$> a) a).
Proof.
  induction a as [|x a IH]; simpl; [done|].
  destruct (gt0 x) eqn:Hx; [by constructor|done].
Qed.

Lemma clean_zeros_Some a b M a2 b2 M2 :
  clean_zeros a b M = Some (a2, b2, M2) →
  length a = length (rows M) ∧ length b = ncols M
  ∧ a2 = select (gt0 <$> a) a ∧ b2 = select (gt0 <$> b) b
  ∧ M2 = Array2 (length (select (gt0 <$> b) (gt0 <$> b)))
           (select (gt0 <$> b) <$> select (gt0 <$> a) (rows M)).
Proof.
  unfold CleanZeros.clean_zeros, bool_index, col_index.
  rewrite !length_fmap. intros Hc.
  repeat (case_decide; simplify_eq/=); try done.
Qed.

Lemma clean_zeros_result a b M a2 b2 M2 :
  wf M → clean_zeros a b M = Some (a2, b2, M2) →
  wf M2 ∧ length (rows M2) = length a2 ∧ ncols M2 = length b2
  ∧ Forall (λ x, gt0 x = true) a2 ∧ Forall (λ x, gt0 x = true) b2.
Proof.
  intros HM (Ha & Hb & -> & -> & ->)%clean_zeros_Some. simpl.
  split_and!.
  - unfold wf. simpl. apply Forall_fmap.
    assert (Forall (λ r, length r = ncols M) (select (gt0 <$> a) (rows M))) as Hsel.
    { clear Ha. revert a. induction HM as [|r rs Hr _ IH]; intros [|x a];
        simpl; try done. destruct (gt0 x); [constructor|]; auto. }
    eapply Forall_impl; [done|]. intros r Hr. simpl.
    apply length_select. rewrite length_fmap. congruence.
  - rewrite length_fmap.
    rewrite (length_select (gt0 <$> a) (rows M)) by (by rewrite length_fmap).
    by rewrite (length_select (gt0 <$> a) a) by (by rewrite length_fmap).
  - symmetry. apply length_select. by rewrite length_fmap.
  - apply select_gt0.
  - apply select_gt0.
Qed.

(** X6. On a matrix with [ncols] entries in every row, [clean_zeros]
    returns exactly when [a] has one entry per row and [b] one per column,
    and raises otherwise.  What it returns fits together again: [M2] has
    one row per entry of [a2] and one column per entry of [b2], and all
    entries of [a2] and [b2] are positive. *)
Theorem clean_zeros_shapes a b M :
  wf M →
  (is_Some (clean_zeros a b M) ↔
     length a = length (rows M) ∧ length b = ncols M)
  ∧ ∀ a2 b2 M2, clean_zeros a b M = Some (a2, b2, M2) →
      wf M2 ∧ length (rows M2) = length a2 ∧ ncols M2 = length b2
      ∧ Forall (λ x, gt0 x = true) a2 ∧ Forall (λ x, gt0 x = true) b2.
Proof.
  intros HM. split.
  - split.
    + intros [[[a2 b2] M2] Hc]. apply clean_zeros_Some in Hc. tauto.
    + intros [Ha Hb]. unfold CleanZeros.clean_zeros, bool_index, col_index.
      rewrite !length_fmap. rewrite !decide_True by done. simpl.
      rewrite decide_True by done. by eexists.
  - intros a2 b2 M2. by apply clean_zeros_result.
Qed.

(** X7. Weights that are all positive are left as they are, with their
    matrix; so cleaning what [clean_zeros] returned changes nothing. *)
Theorem clean_zeros_fixed a b M :
  wf M →
  (Forall (λ x, gt0 x = true) a → Forall (λ x, gt0 x = true) b →
   length a = length (rows M) → length b = ncols M →
   clean_zeros a b M = Some (a, b, M))
  ∧ ∀ a2 b2 M2, clean_zeros a b M = Some (a2, b2, M2) →
      clean_zeros a2 b2 M2 = Some (a2, b2, M2).
Proof.
  assert (∀ a b M, wf M →
            Forall (λ x, gt0 x = true) a → Forall (λ x, gt0 x = true) b →
            length a = length (rows M) → length b = ncols M →
            clean_zeros a b M = Some (a, b, M)) as Hfix.
  { clear a b M. intros a b [n rs] HM Ha Hb Hla Hlb. simpl in *.
    assert (∀ l : list F, Forall (λ x, gt0 x = true) l →
              Forall (λ b, b = true) (gt0 <$> l)) as Hmask.
    { intros l Hl. by apply Forall_fmap. }
    unfold CleanZeros.clean_zeros, bool_index, col_index. simpl.
    rewrite !length_fmap. rewrite !decide_True by done. simpl.
    rewrite decide_True by done. simpl.
    rewrite !select_all_true by (rewrite ?length_fmap; auto).
    rewrite length_fmap, <-Hlb. do 3 f_equal.
    rewrite <-(list_fmap_id rs) at 2. apply Forall_fmap_ext_1.
    eapply Forall_impl; [exact HM|]. intros r Hr. simpl in *.
    apply select_all_true; [auto|]. rewrite length_fmap. congruence. }
  intros HM. split; [by apply Hfix|].
  intros a2 b2 M2 Hc.
  destruct (clean_zeros_result a b M a2 b2 M2 HM Hc) as (? & ? & ? & ? & ?).
  by apply Hfix.
Qed.

End clean_facts.

(** ** [check_params] *)

Section check_facts.
Context {A : Type}.

Import CheckParams.

Lemma collect_missing_filter (kwargs : list (string * py A)) acc :
  collect_missing kwargs acc
  = acc ++ (filter (λ kv, is_None kv.2 = true) kwargs).*1.
Proof.
  revert acc. induction kwargs as [|[param [|v]] kwargs IH]; intros acc;
    cbn [collect_missing].
  - by rewrite filter_nil, app_nil_r.
  - rewrite IH, filter_cons_True by done. by rewrite <-(assoc_L (++)).
  - rewrite IH, filter_cons_False by done. done.
Qed.

(** X8. [check_params] returns [True] exactly when none of its arguments is
    [None], and then prints nothing; otherwise it returns [False] after
    printing the warning and one line for each argument that is [None],
    in the order of the call. *)
Theorem check_params_spec (kwargs : list (string * py A)) :
  ((check_params kwargs).2 = true ↔ ∀ k v, (k, v) ∈ kwargs → v ≠ PyNone)
  ∧ ((check_params kwargs).1 = [] ↔ (check_params kwargs).2 = true)
  ∧ ((check_params kwargs).2 = false →
     (check_params kwargs).1
     = header :: (print2 newline
                    <$> (filter (λ kv, is_None kv.2 = true) kwargs).*1)).
Proof.
  unfold check_params. rewrite collect_missing_filter. simpl.
  set (missing := (filter (λ kv : string * py A, is_None kv.2 = true) kwargs).*1).
  assert (missing = [] ↔ ∀ k v, (k, v) ∈ kwargs → v ≠ PyNone) as Hnil.
  { unfold missing. split.
    - intros Hf%fmap_nil_inv k v Hin ->.
      by apply (filter_nil_not_elem_of _ _ (k, PyNone) Hf).
    - intros Hall.
      destruct (filter (λ kv : string * py A, is_None kv.2 = true) kwargs)
        as [|[k v] l] eqn:Hf; [done|].
      assert ((k, v) ∈ filter (λ kv : string * py A, is_None kv.2 = true) kwargs)
        as [Hv Hin]%list_elem_of_filter by (rewrite Hf; left).
      destruct v; [|done]. by destruct (Hall k PyNone Hin). }
  case_decide as Hlen; simpl.
  - split_and!; [| |done].
    + split; [done|]. intros Hall%Hnil. rewrite Hall in Hlen. simpl in Hlen. lia.
    + done.
  - assert (missing = []) as Hm by (destruct missing; simpl in *; [done|lia]).
    split_and!; [|done..]. split; [|done]. intros _. by apply Hnil.
Qed.

End check_facts.

(** ** [deprecated] and [_is_deprecated] *)

Section deprecated_facts.

Import Estimator.

Lemma app_cons c (a s : string) : String c a +:+ s = String c (a +:+ s).
Proof. reflexivity. Qed.

Lemma app_nil (s : string) : "" +:+ s = s.
Proof. reflexivity. Qed.

Lemma prefix_app (p b : string) : String.prefix p (p +:+ b) = true.
Proof.
  induction p as [|c p IH]; [by destruct b|].
  rewrite app_cons. simpl. by destruct (Ascii.ascii_dec c c).
Qed.

Lemma prefix_app_l (p s b : string) :
  String.prefix p s = true → String.prefix p (s +:+ b) = true.
Proof.
  revert s. induction p as [|c p IH]; intros s; [by destruct (s +:+ b)|].
  destruct s as [|c' s]; simpl; [done|]. rewrite ?app_cons. simpl.
  destruct (Ascii.ascii_dec c c'); [apply IH|done].
Qed.

Lemma contains_unfold (p s : string) :
  contains p s
  = String.prefix p s
    || match s with EmptyString => false | String _ s' => contains p s' end.
Proof. by destruct s. Qed.

Lemma contains_app_r (p a s : string) :
  contains p s = true → contains p (a +:+ s) = true.
Proof.
  intros Hs. induction a as [|c a IH]; [done|].
  rewrite app_cons, contains_unfold, IH. apply orb_true_r.
Qed.

Lemma contains_app_l (p s b : string) :
  contains p s = true → contains p (s +:+ b) = true.
Proof.
  induction s as [|c s IH]; rewrite contains_unfold.
  - rewrite orb_false_r. intros Hp. rewrite app_nil.
    destruct p; [by destruct b|done].
  - intros [Hp|Hs]%orb_true_iff.
    + apply (prefix_app_l p (String c s) b) in Hp. rewrite app_cons in Hp.
      by rewrite app_cons, contains_unfold, Hp.
    + rewrite app_cons, contains_unfold, IH by done. apply orb_true_r.
Qed.

Lemma deprecation_msg_contains extra what name :
  contains "deprecated" (deprecation_msg extra what name) = true.
Proof.
  assert (contains "deprecated" (what +:+ " " +:+ name +:+ " is deprecated") = true)
    as Hmsg by (do 3 apply contains_app_r; reflexivity).
  unfold deprecation_msg. case_decide; [done|]. by apply contains_app_l.
Qed.

(** X9. From Python 3.5 on, [_is_deprecated] recognises every function
    that [deprecated(extra)] has wrapped, whatever [extra] and the name of
    the function are.  It recognises the wrapped [__init__] of a class
    deprecated in this way, but not the class itself. *)
Theorem deprecated_is_detected extra init_doc major minor :
  ¬ (major < 3 ∨ (major = 3 ∧ minor < 5)) →
  (∀ name doc sig closure original,
     ∃ wrapped,
       _decorate_fun extra (Func name doc sig closure original) = Ok wrapped
       ∧ _is_deprecated major minor (OFunc wrapped) = Ok true)
  ∧ (∀ cls,
       _is_deprecated major minor
         (OFunc (c_init (_decorate_class extra init_doc cls))) = Ok true
       ∧ _is_deprecated major minor
           (OClass (_decorate_class extra init_doc cls)) = Ok false).
Proof.
  intros Hv. split.
  - intros name doc sig closure original. eexists. split; [done|].
    unfold _is_deprecated. rewrite decide_False by done.
    simpl. by rewrite deprecation_msg_contains.
  - intros cls. unfold _is_deprecated. rewrite !decide_False by done.
    split; [|done]. simpl. by rewrite deprecation_msg_contains.
Qed.

(** ** [_get_param_names] *)

Lemma is_model_param_iff p :
  is_model_param p = true ↔ p_name p ≠ "self" ∧ p_kind p ≠ VAR_KEYWORD.
Proof.
  unfold is_model_param. rewrite andb_true_iff, !negb_true_iff.
  rewrite String.eqb_neq, bool_decide_eq_false. done.
Qed.

(** X10. For a class whose [__init__] is a plain function,
    [_get_param_names] raises [RuntimeError] exactly when a parameter
    other than [self] collects the positional arguments; otherwise it
    returns, in increasing order, the names of the parameters other than
    [self] and the one that collects the keyword arguments, each as often
    as it is declared. *)
Theorem get_param_names_spec cname name doc sig closure :
  let cls := Class cname (Func name doc sig closure None) in
  (_get_param_names cls = Raise RuntimeError ↔
     ∃ p, p ∈ sig ∧ p_name p ≠ "self" ∧ p_kind p = VAR_POSITIONAL)
  ∧ ∀ names, _get_param_names cls = Ok names →
      Sorted String.le names
      ∧ names ≡ₚ p_name <$> filter (λ p, is_model_param p = true) sig
      ∧ ∀ n, n ∈ names ↔
          ∃ p, p ∈ sig ∧ p_name p = n ∧ n ≠ "self" ∧ p_kind p ≠ VAR_KEYWORD.
Proof.
  simpl. unfold _get_param_names. simpl. case_decide as Hex.
  - split; [|done]. split; [|done]. intros _.
    apply Exists_exists in Hex as (p & [Hp Hin]%list_elem_of_filter & Hk).
    apply is_model_param_iff in Hp as [? ?]. eauto.
  - split.
    + split; [done|]. intros (p & Hin & Hname & Hk). destruct Hex.
      apply Exists_exists. exists p. split; [|done].
      apply list_elem_of_filter. split; [|done].
      apply is_model_param_iff. split; [done|]. by rewrite Hk.
    + intros names [= <-]. unfold sorted_names. split_and!.
      * apply (Sorted_merge_sort _).
      * apply merge_sort_Permutation.
      * intros n. rewrite merge_sort_Permutation, list_elem_of_fmap.
        split.
        -- intros (p & -> & [Hp Hin]%list_elem_of_filter).
           apply is_model_param_iff in Hp as [? ?]. eauto.
        -- intros (p & Hin & <- & ? & ?). exists p. split; [done|].
           apply list_elem_of_filter. split; [|done].
           by apply is_model_param_iff.
Qed.

(** X11. Deprecating a class that was not deprecated before leaves its
    parameter names as they were, because [wrapped] remembers the
    original [__init__]; deprecating it a second time makes
    [_get_param_names] raise [RuntimeError], whatever the class is. *)
Theorem deprecated_class_param_names e1 e2 init_doc cls :
  (match c_init cls with Func _ _ _ _ (Some _) => False | _ => True end →
   _get_param_names (_decorate_class e1 init_doc cls) = _get_param_names cls)
  ∧ _get_param_names
      (_decorate_class e2 init_doc (_decorate_class e1 init_doc cls))
    = Raise RuntimeError.
Proof.
  split; [|done]. destruct cls as [cname [|name doc sig closure [orig|]]]; done.
Qed.

End deprecated_facts.

(** ** [get_params] and [set_params] *)

Section estimator_facts.
Context {A : Type}.

Import Estimator.

Local Abbreviation val := (@Estimator.val A).
Local Abbreviation obj := (@Estimator.obj A).

Lemma fold_raise {T} (g : T → string → result T) e names :
  foldl (λ acc key, out ← acc; g out key) (Raise e) names = Raise e.
Proof. induction names; simpl; auto. Qed.

Lemma get_param_shallow rec (h : gmap nat obj) o out key :
  get_param rec h o false out key
  = Ok (match read_param o key with
        | Some v => <[key := v]> out
        | None => out
        end).
Proof.
  unfold get_param, read_param.
  destruct (o_attrs o !! key) as [[[| |l']|]|]; done.
Qed.

Lemma shallow_fold rec (h : gmap nat obj) o acc names :
  foldl (λ acc key, out ← acc; get_param rec h o false out key) (Ok acc) names
  = Ok (foldl (λ out key, match read_param o key with
                          | Some v => <[key := v]> out
                          | None => out
                          end) acc names).
Proof.
  revert acc. induction names as [|key names IH]; intros acc; simpl; [done|].
  change (Ok acc ≫= λ out, get_param rec h o false out key)
    with (get_param rec h o false acc key).
  by rewrite get_param_shallow, IH.
Qed.

Lemma lookup_shallow_fold (o : obj) (acc : gmap string val) names k :
  foldl (λ out key, match read_param o key with
                    | Some v => <[key := v]> out
                    | None => out
                    end) acc names !! k
  = if decide (k ∈ names) then
      match read_param o k with Some v => Some v | None => acc !! k end
    else acc !! k.
Proof.
  revert acc. induction names as [|key names IH]; intros acc.
  - simpl. done.
  - cbn [foldl fold_left]. rewrite IH. destruct (decide (k = key)) as [->|Hne].
    + rewrite (decide_True (P := key ∈ key :: names)) by left.
      destruct (read_param o key) as [v|] eqn:Hr.
      * rewrite lookup_insert_eq. by case_decide.
      * by case_decide.
    + assert (k ∈ key :: names ↔ k ∈ names) as Hin.
      { rewrite elem_of_cons. split; [by intros [?|?]|by right]. }
      assert (match read_param o key with
              | Some v => <[key := v]> acc
              | None => acc
              end !! k = acc !! k) as ->.
      { destruct (read_param o key); [by rewrite lookup_insert_ne|done]. }
      destruct (decide (k ∈ names)), (decide (k ∈ key :: names));
        try done; tauto.
Qed.

Lemma get_params_shallow_lookup n (h : gmap nat obj) l o names :
  h !! l = Some o →
  _get_param_names (o_class o) = Ok names →
  ∃ out, get_params (S n) h l false = Ok out
       ∧ ∀ k, out !! k = if decide (k ∈ names) then read_param o k else None.
Proof.
  intros Hl Hnames. simpl. rewrite Hl, Hnames.
  change (Ok names ≫= ?k) with (k names). simpl.
  rewrite shallow_fold. eexists. split; [done|].
  intros k. rewrite lookup_shallow_fold, lookup_empty.
  case_decide; [|done]. by destruct (read_param o k).
Qed.

(** X12. [get_params(deep=False)] on an estimator whose class has the
    parameter names [names] never raises, and returns the dictionary whose
    keys are the names that are not deprecated; a parameter that was
    never set as an attribute has the value [None].  When
    [_get_param_names] raises, [get_params] raises the same way. *)
Theorem get_params_shallow n (h : gmap nat obj) l o :
  h !! l = Some o →
  (∀ names, _get_param_names (o_class o) = Ok names →
     ∃ out, get_params (S n) h l false = Ok out
          ∧ ∀ k, out !! k = if decide (k ∈ names) then read_param o k
                            else None)
  ∧ (∀ e deep, _get_param_names (o_class o) = Raise e →
       get_params (S n) h l deep = Raise e).
Proof.
  intros Hl. split.
  - intros names Hnames. by apply get_params_shallow_lookup.
  - intros e deep He. simpl. by rewrite Hl, He.
Qed.

Lemma get_param_grows rec (h : gmap nat obj) o deep out key out' :
  get_param rec h o deep out key = Ok out' →
  (∀ k, is_Some (out !! k) → is_Some (out' !! k))
  ∧ (is_Some (read_param o key) → is_Some (out' !! key)).
Proof.
  unfold get_param, read_param.
  assert (∀ (m : gmap string val) v,
            (∀ k, is_Some (out !! k) → is_Some (m !! k)) →
            (∀ k, is_Some (out !! k) → is_Some (<[key := v]> m !! k))
            ∧ is_Some (<[key := v]> m !! key)) as Hins.
  { intros m v Hm. split; [|by rewrite lookup_insert_eq].
    intros k Hk. rewrite lookup_insert_is_Some. destruct (decide (key = k)); auto. }
  destruct (o_attrs o !! key) as [[v|v]|] eqn:Hattr.
  - destruct v as [| |l']; simpl.
    + intros [= <-]. destruct (Hins out VNone); auto.
    + intros [= <-]. destruct (Hins out (VAtom a)); auto.
    + destruct (deep && bool_decide (is_Some (h !! l'))).
      * destruct (rec l') as [items|e]; simpl; [|done]. intros [= <-].
        destruct (Hins (kmap (M1 := gmap string) (M2 := gmap string)
                          (String.app (key +:+ "__")) items ∪ out) (VRef l')); auto.
        intros k Hk. apply lookup_union_is_Some. auto.
      * intros [= <-]. destruct (Hins out (VRef l')); auto.
  - intros [= <-]. split; [done|]. by intros [? ?].
  - simpl. intros [= <-]. destruct (Hins out VNone); auto.
Qed.

Lemma deep_fold_grows rec (h : gmap nat obj) o deep acc names out k :
  foldl (λ acc key, out ← acc; get_param rec h o deep out key) (Ok acc) names
  = Ok out →
  is_Some (acc !! k) ∨ (k ∈ names ∧ is_Some (read_param o k)) →
  is_Some (out !! k).
Proof.
  revert acc. induction names as [|key names IH]; intros acc; simpl.
  - intros [= <-] [?|[?%elem_of_nil ?]]; done.
  - change (Ok acc ≫= λ out, get_param rec h o deep out key)
      with (get_param rec h o deep acc key).
    destruct (get_param rec h o deep acc key) as [acc'|e] eqn:Hstep.
    2:{ by rewrite fold_raise. }
    destruct (get_param_grows _ _ _ _ _ _ _ Hstep) as [Hmono Hkey].
    intros Hfold Hk. apply (IH acc' Hfold).
    destruct Hk as [?|[[->|?]%elem_of_cons ?]]; auto.
Qed.

Lemma set_loop_flat rec (valid : gmap string val) (h : gmap nat obj) l params :
  Forall (λ kv, split_dunder kv.1 = None ∧ is_Some (valid !! kv.1)) params →
  (set_loop rec valid h l params = (setattrs h l params, Ok (VRef l)))
  ∧ ∀ k v rest, split_dunder k = None → valid !! k = None →
      set_loop rec valid h l (params ++ (k, v) :: rest)
      = (setattrs h l params, Raise ValueError).
Proof.
  intros Hall. revert h.
  induction Hall as [|[key value] params [Hflat [x Hx]] _ IH]; intros h; simpl.
  - split; [done|]. intros k v rest -> ->. done.
  - simpl in *. rewrite Hflat, Hx. apply IH.
Qed.

Lemma set_params_unfold n (h : gmap nat obj) l params :
  params ≠ [] →
  set_params (S n) h l params
  = match get_params n h l true with
    | Raise e => (h, Raise e)
    | Ok valid_params => set_loop (set_params n) valid_params h l params
    end.
Proof. by destruct params. Qed.

Lemma lookup_setattr (h : gmap nat obj) l o k v :
  h !! l = Some o →
  setattr h l k v !! l = Some (Obj (o_class o) (<[k := Plain v]> (o_attrs o))).
Proof. intros Hl. unfold setattr. by rewrite Hl, lookup_insert_eq. Qed.

(** X13. Setting one parameter and reading it back: when [key] is a
    parameter name of the class of [self] that holds no ["__"] and is not
    deprecated, and [get_params()] does not raise,
    [set_params(key=value)] returns [self] after one [setattr], and
    [get_params(deep=False)] then has [value] at [key] and what it had
    before at every other key. *)
Theorem set_params_get_params n m (h : gmap nat obj) l o names valid key value :
  h !! l = Some o →
  _get_param_names (o_class o) = Ok names →
  get_params n h l true = Ok valid →
  key ∈ names → is_Some (read_param o key) → split_dunder key = None →
  set_params (S n) h l [(key, value)] = (setattr h l key value, Ok (VRef l))
  ∧ ∃ out, get_params (S m) (setattr h l key value) l false = Ok out
         ∧ out !! key = Some value
         ∧ ∀ out0 k, get_params (S m) h l false = Ok out0 → k ≠ key →
             out !! k = out0 !! k.
Proof.
  intros Hl Hnames Hvalid Hin Hread Hflat.
  assert (is_Some (valid !! key)) as Hkey.
  { destruct n as [|n]; [done|]. simpl in Hvalid. rewrite Hl, Hnames in Hvalid.
    change (Ok names ≫= ?k) with (k names) in Hvalid. simpl in Hvalid.
    eapply deep_fold_grows; [exact Hvalid|]. auto. }
  split.
  - rewrite set_params_unfold, Hvalid by done.
    destruct (set_loop_flat (set_params n) valid h l [(key, value)]) as [-> _];
      [|done]. by repeat constructor.
  - pose proof (lookup_setattr h l o key value Hl) as Hl'.
    destruct (get_params_shallow_lookup m _ l _ names Hl' Hnames)
      as (out & Hout & Hlook).
    exists out. split_and!; [done| |].
    + rewrite Hlook, decide_True by done. unfold read_param. simpl.
      by rewrite lookup_insert_eq.
    + intros out0 k Hout0 Hne.
      destruct (get_params_shallow_lookup m h l o names Hl Hnames)
        as (out0' & Hout0' & Hlook0).
      rewrite Hout0 in Hout0'. simplify_eq.
      rewrite Hlook, Hlook0. unfold read_param. simpl.
      by rewrite lookup_insert_ne.
Qed.

(** X14. [set_params] is not all or nothing: when the keys of [done] hold
    no ["__"] and are keys of [get_params()], and [key] holds no ["__"]
    and is not a key of [get_params()], then
    [set_params(done..., key=value, rest...)] raises [ValueError] after it
    has set every parameter of [done], and sets none of [rest]. *)
Theorem set_params_invalid_key n (h : gmap nat obj) l valid done key value rest :
  get_params n h l true = Ok valid →
  Forall (λ kv, split_dunder kv.1 = None ∧ is_Some (valid !! kv.1)) done →
  split_dunder key = None → valid !! key = None →
  set_params (S n) h l (done ++ (key, value) :: rest)
  = (setattrs h l done, Raise ValueError).
Proof.
  intros Hvalid Hdone Hflat Hkey.
  rewrite set_params_unfold, Hvalid by (by destruct done).
  destruct (set_loop_flat (set_params n) valid h l done Hdone) as [_ Hbad].
  apply (Hbad key value rest Hflat Hkey).
Qed.

(** *** Nested parameters *)

Lemma prefix_dunder c c' (r : string) :
  String.prefix "__" (String c (String c' r))
  = String.eqb (String c (String c' EmptyString)) "__".
Proof.
  cbn [String.prefix String.eqb].
  repeat match goal with
  | |- context [Ascii.ascii_dec ?a ?b] =>
      destruct (Ascii.ascii_dec a b) as [<-|?]
  end;
  repeat match goal with
  | H : ?a ≠ ?b |- context [Ascii.eqb ?b ?a] =>
      rewrite (proj2 (Ascii.eqb_neq b a)) by congruence
  end; try done.
  by destruct r.
Qed.

Lemma split_dunder_cons c c' (r : string) :
  split_dunder (String c (String c' r))
  = if String.eqb (String c (String c' EmptyString)) "__"
    then Some (EmptyString, r)
    else (λ p, (String c p.1, p.2)) <$> split_dunder (String c' r).
Proof. reflexivity. Qed.

Lemma split_dunder_app (name sub : string) :
  contains "__" (name +:+ "_") = false →
  split_dunder (name +:+ "__" +:+ sub) = Some (name, sub).
Proof.
  induction name as [|c name IH]; [done|].
  intros Hno. rewrite app_cons, contains_unfold in Hno.
  apply orb_false_elim in Hno as [Hpre Hno]. specialize (IH Hno).
  rewrite app_cons. destruct name as [|c' name].
  - rewrite app_nil in Hpre. rewrite prefix_dunder in Hpre.
    rewrite app_nil, !app_cons, app_nil, split_dunder_cons, Hpre.
    by rewrite split_dunder_cons.
  - rewrite app_cons, prefix_dunder in Hpre. rewrite app_cons in IH.
    by rewrite app_cons, split_dunder_cons, Hpre, IH.
Qed.

(** X15. A key [name__sub], where [name] with one more ["_"] holds no
    ["__"], is split into [name] and [sub].  When [name] is no key of
    [get_params()], [set_params(name__sub=value)] raises [ValueError] and
    sets nothing.  When [get_params()] has an estimator at [name], and
    [sub] holds no ["__"] and is a key of the [get_params()] of that
    estimator, the call sets [sub] on that estimator, leaves every other
    object as it was, and returns [self], not the estimator. *)
Theorem set_params_nested n (h : gmap nat obj) l valid name sub value :
  get_params (S n) h l true = Ok valid →
  contains "__" (name +:+ "_") = false →
  (valid !! name = None →
   set_params (S (S n)) h l [(name +:+ "__" +:+ sub, value)]
   = (h, Raise ValueError))
  ∧ (∀ l' valid',
       valid !! name = Some (VRef l') → is_Some (h !! l') →
       get_params n h l' true = Ok valid' →
       split_dunder sub = None → is_Some (valid' !! sub) →
       ∃ h', set_params (S (S n)) h l [(name +:+ "__" +:+ sub, value)]
             = (h', Ok (VRef l))
           ∧ h' = setattr h l' sub value
           ∧ ∀ l0, l0 ≠ l' → h' !! l0 = h !! l0).
Proof.
  intros Hvalid Hname%(split_dunder_app name sub). split.
  - intros Hnone. rewrite set_params_unfold, Hvalid by done.
    cbn [set_loop]. by rewrite Hname, Hnone.
  - intros l' valid' Hsome Hl' Hvalid' Hflat Hsub.
    exists (setattr h l' sub value). split_and!; [|done|].
    + rewrite set_params_unfold, Hvalid by done.
      cbn [set_loop]. rewrite Hname, Hsome, bool_decide_true by done.
      rewrite set_params_unfold, Hvalid' by done.
      destruct (set_loop_flat (set_params n) valid' h l' [(sub, value)])
        as [-> _]; [by repeat constructor|]. done.
    + intros l0 Hne. unfold setattr. destruct Hl' as [o' ->].
      by rewrite lookup_insert_ne.
Qed.

(** *** [deep=True] extends [deep=False] *)

Lemma compare_app (a b : string) :
  b ≠ "" → String.compare (a +:+ b) a = Gt.
Proof.
  intros Hb. induction a as [|c a IH]; [by destruct b|].
  rewrite app_cons. cbn [String.compare].
  unfold Ascii.compare. by rewrite N.compare_refl.
Qed.

Lemma nested_key_above (key k : string) :
  ¬ String.le (String.app (key +:+ "__") k) key.
Proof.
  unfold String.le, String.leb.
  assert ((key +:+ "__") +:+ k = key +:+ ("__" +:+ k)) as ->.
  { induction key as [|c key IH]; [done|]. by rewrite !app_cons, IH. }
  rewrite compare_app by done. simpl. tauto.
Qed.

Lemma get_param_names_sorted cls names :
  _get_param_names cls = Ok names → StronglySorted String.le names.
Proof.
  unfold _get_param_names.
  destruct (match c_init cls with
            | Func _ _ _ _ (Some original) => original
            | init => init
            end) as [|name doc sig closure orig].
  - intros [= <-]. constructor.
  - case_decide; [done|]. intros [= <-].
    apply (StronglySorted_merge_sort _).
Qed.

Lemma get_param_keeps rec (h : gmap nat obj) o deep acc key acc'
    (D : list string) :
  get_param rec h o deep acc key = Ok acc' →
  (∀ d, d ∈ D → String.le d key) →
  (∀ k v, k ∈ D → read_param o k = Some v → acc !! k = Some v) →
  ∀ k v, k ∈ key :: D → read_param o k = Some v → acc' !! k = Some v.
Proof.
  intros Hstep Hle Hacc.
  assert (∀ (m : gmap string val) value,
            read_param o key = Some value →
            (∀ k, k ∈ D → k ≠ key → m !! k = acc !! k) →
            ∀ k v, k ∈ key :: D → read_param o k = Some v →
                   <[key := value]> m !! k = Some v) as Hins.
  { intros m value Hkey Hm k v Hk Hv. destruct (decide (k = key)) as [->|Hne].
    - rewrite lookup_insert_eq. congruence.
    - rewrite lookup_insert_ne by done.
      apply elem_of_cons in Hk as [?|Hk]; [done|].
      rewrite Hm by done. eauto. }
  assert (∀ items k, k ∈ D → k ≠ key →
            (kmap (M1 := gmap string) (M2 := gmap string)
               (String.app (key +:+ "__")) items ∪ acc) !! k = acc !! k) as Hdeep.
  { intros items k Hk _. apply lookup_union_r.
    apply lookup_kmap_None; [apply _|]. intros i ->.
    destruct (nested_key_above key i). auto. }
  unfold get_param in Hstep.
  destruct (o_attrs o !! key) as [[value|value]|] eqn:Hattr.
  - assert (read_param o key = Some value) as Hkey
      by (unfold read_param; by rewrite Hattr).
    destruct value as [| |l']; simpl in Hstep.
    + simplify_eq. apply Hins; auto.
    + simplify_eq. apply Hins; auto.
    + destruct (deep && bool_decide (is_Some (h !! l'))); simpl in Hstep.
      * destruct (rec l') as [items|e]; simpl in Hstep; [|done].
        simplify_eq. apply Hins; auto.
      * simplify_eq. apply Hins; auto.
  - simplify_eq. intros k v Hk Hv. apply elem_of_cons in Hk as [->|Hk]; [|eauto].
    unfold read_param in Hv. by rewrite Hattr in Hv.
  - assert (read_param o key = Some VNone) as Hkey
      by (unfold read_param; by rewrite Hattr).
    simpl in Hstep. simplify_eq. apply Hins; auto.
Qed.

Lemma deep_fold_keeps rec (h : gmap nat obj) o deep names acc out
    (D : list string) :
  StronglySorted String.le names →
  (∀ d k, d ∈ D → k ∈ names → String.le d k) →
  (∀ k v, k ∈ D → read_param o k = Some v → acc !! k = Some v) →
  foldl (λ acc key, out ← acc; get_param rec h o deep out key) (Ok acc) names
  = Ok out →
  ∀ k v, k ∈ D ++ names → read_param o k = Some v → out !! k = Some v.
Proof.
  intros Hsorted. revert acc D.
  induction Hsorted as [|key names _ IH Hall]; intros acc D Hle Hacc; simpl.
  - intros [= <-] k v. rewrite app_nil_r. eauto.
  - change (Ok acc ≫= λ out, get_param rec h o deep out key)
      with (get_param rec h o deep acc key).
    destruct (get_param rec h o deep acc key) as [acc'|e] eqn:Hstep.
    2:{ by rewrite fold_raise. }
    intros Hfold k v Hk. apply (IH acc' (key :: D)); [| |done|].
    + intros d k' [->|Hd]%elem_of_cons Hk'.
      * by apply (proj1 (Forall_forall _ _) Hall).
      * apply Hle; [done|]. by right.
    + apply (get_param_keeps _ _ _ _ _ _ _ _ Hstep); [|done].
      intros d Hd. apply Hle; [done|]. by left.
    + apply elem_of_app in Hk as [Hk|[->|Hk]%elem_of_cons].
      * apply elem_of_app. left. by right.
      * apply elem_of_app. left. by left.
      * apply elem_of_app. by right.
Qed.

(** X16. Whenever [get_params(deep=True)] and [get_params(deep=False)]
    both return for an estimator, the first extends the second: every
    parameter of the estimator itself has the same value in both, also when
    the key [name__sub] of a nested parameter is the name of one of its
    own parameters. *)
Theorem get_params_deep_extends n m (h : gmap nat obj) l out_deep out :
  get_params n h l true = Ok out_deep →
  get_params m h l false = Ok out →
  out ⊆ out_deep.
Proof.
  destruct n as [|n]; [done|]. destruct m as [|m]; [done|]. simpl.
  destruct (h !! l) as [o|]; [|done].
  destruct (_get_param_names (o_class o)) as [names|e] eqn:Hnames; [|done].
  change (Ok names ≫= ?k) with (k names). cbv beta.
  rewrite shallow_fold. intros Hdeep [= <-].
  apply map_subseteq_spec. intros k v.
  rewrite lookup_shallow_fold, lookup_empty.
  case_decide as Hk; [|done]. intros Hv.
  eapply (deep_fold_keeps _ _ _ _ names ∅ out_deep []
            (get_param_names_sorted _ _ Hnames)); [| |exact Hdeep|done|].
  - by intros d k' ?%elem_of_nil.
  - by intros k' v' ?%elem_of_nil.
  - by destruct (read_param o k).
Qed.

End estimator_facts.

(** ** The further properties on concrete calls *)

Lemma reachable_mid_10 : reachable square X_A 2 mid_10.
Proof. apply (run_steps square X_A 2 sch_10). vm_compute; reflexivity. Qed.

Lemma is_ret_end_10 : is_ret end_10 = true.
Proof. vm_compute; reflexivity. Qed.

(** After nine transitions two items have been put; at the end all five
    and the two sentinels, in this order. *)
Lemma parmap_puts_in_order_witness :
  (reachable square X_A 2 mid_10
   ∧ reverse (put_log (hist mid_10)) `prefix_of` all_puts X_A 2)
  ∧ (reachable square X_A 2 end_10 ∧ is_ret end_10 = true
     ∧ reverse (put_log (hist end_10)) = all_puts X_A 2).
Proof.
  split.
  - split; [exact reachable_mid_10|].
    exact (proj1 (parmap_puts_in_order square X_A 2) mid_10 reachable_mid_10).
  - split; [exact reachable_end_10|]. split; [exact is_ret_end_10|].
    exact (proj2 (parmap_puts_in_order square X_A 2) end_10
             reachable_end_10 is_ret_end_10).
Defined.

Lemma parmap_results_sound_witness :
  reachable square X_A 2 end_10
  ∧ NoDup (q_out end_10 ++ c_res (pc end_10)).*1
  ∧ (∀ i y, (i, y) ∈ q_out end_10 ++ c_res (pc end_10) →
       ∃ x, X_A !! i = Some x ∧ square x = Some y)
  ∧ (∀ lt1 lt2, sorted lt1 (c_res (pc end_10)) = sorted lt2 (c_res (pc end_10))).
Proof.
  split; [exact reachable_end_10|].
  exact (parmap_results_sound square X_A 2 end_10 reachable_end_10).
Defined.

Lemma parmap_evaluates_once_witness :
  reachable square X_A 2 end_10
  ∧ count_ev (is_eval 1) (hist end_10) ≤ 1
  ∧ (length X_A ≤ 1 → count_ev (is_eval 1) (hist end_10) = 0)
  ∧ (is_ret end_10 = true → 1 < length X_A →
     count_ev (is_eval 1) (hist end_10) = 1).
Proof.
  split; [exact reachable_end_10|].
  exact (parmap_evaluates_once square X_A 2 end_10 1 reachable_end_10).
Defined.

Lemma steps_mid_10 : steps square X_A 2 9 (parmap_init 2) mid_10.
Proof. apply (run_nsteps square X_A 2 sch_10). vm_compute; reflexivity. Qed.


Lemma wf_M_ex : CleanZeros.wf CleanZeros.M_ex.
Proof. repeat constructor. Qed.

(** Weights [3, 0, 5] and [0, 7] keep rows 0 and 2 and column 1. *)
Lemma clean_zeros_shapes_witness :
  CleanZeros.wf CleanZeros.M_ex
  ∧ (is_Some (CleanZeros.clean_zeros (Z.ltb 0) CleanZeros.a_ex CleanZeros.b_ex
                CleanZeros.M_ex)
     ↔ length CleanZeros.a_ex = length (CleanZeros.rows CleanZeros.M_ex)
       ∧ length CleanZeros.b_ex = CleanZeros.ncols CleanZeros.M_ex)
  ∧ ∀ a2 b2 M2,
      CleanZeros.clean_zeros (Z.ltb 0) CleanZeros.a_ex CleanZeros.b_ex
        CleanZeros.M_ex = Some (a2, b2, M2) →
      CleanZeros.wf M2 ∧ length (CleanZeros.rows M2) = length a2
      ∧ CleanZeros.ncols M2 = length b2
      ∧ Forall (λ x, (0 <? x)%Z = true) a2
      ∧ Forall (λ x, (0 <? x)%Z = true) b2.
Proof.
  split; [exact wf_M_ex|].
  exact (clean_zeros_shapes (Z.ltb 0) CleanZeros.a_ex CleanZeros.b_ex
           CleanZeros.M_ex wf_M_ex).
Defined.

Lemma clean_zeros_fixed_witness :
  CleanZeros.wf CleanZeros.M_ex
  ∧ CleanZeros.clean_zeros (Z.ltb 0) CleanZeros.a_ex CleanZeros.b_ex
      CleanZeros.M_ex
    = Some ([3; 5]%Z, [7]%Z, CleanZeros.Array2 1 [[2]; [6]]%Z)
  ∧ CleanZeros.clean_zeros (Z.ltb 0) [3; 5]%Z [7]%Z
      (CleanZeros.Array2 1 [[2]; [6]]%Z)
    = Some ([3; 5]%Z, [7]%Z, CleanZeros.Array2 1 [[2]; [6]]%Z).
Proof.
  split; [exact wf_M_ex|]. split; [reflexivity|].
  exact (proj2 (clean_zeros_fixed (Z.ltb 0) CleanZeros.a_ex CleanZeros.b_ex
                  CleanZeros.M_ex wf_M_ex) _ _ _ eq_refl).
Defined.

(** Two of four arguments are [None]. *)
Lemma check_params_spec_witness :
  (CheckParams.check_params CheckParams.kwargs_ex).2 = false
  ∧ (CheckParams.check_params CheckParams.kwargs_ex).1
    = [CheckParams.header;
       CheckParams.print2 CheckParams.newline "reg";
       CheckParams.print2 CheckParams.newline "M"].
Proof.
  split; [reflexivity|].
  exact (proj2 (proj2 (check_params_spec CheckParams.kwargs_ex)) eq_refl).
Defined.

(** Python 3.8 and [deprecated("use solve2")]. *)
Lemma deprecated_is_detected_witness :
  ¬ (3 < 3 ∨ (3 = 3 ∧ 8 < 5))
  ∧ (∀ name doc sig closure original,
       ∃ wrapped,
         Estimator._decorate_fun "use solve2"
           (Estimator.Func name doc sig closure original) = Estimator.Ok wrapped
         ∧ Estimator._is_deprecated 3 8 (Estimator.OFunc wrapped)
           = Estimator.Ok true)
  ∧ (∀ cls,
       Estimator._is_deprecated 3 8
         (Estimator.OFunc
            (Estimator.c_init (Estimator._decorate_class "use solve2" None cls)))
       = Estimator.Ok true
       ∧ Estimator._is_deprecated 3 8
           (Estimator.OClass (Estimator._decorate_class "use solve2" None cls))
         = Estimator.Ok false).
Proof.
  assert (¬ (3 < 3 ∨ (3 = 3 ∧ 8 < 5))) as Hv by lia.
  split; [exact Hv|].
  exact (deprecated_is_detected "use solve2" None 3 8 Hv).
Defined.

Lemma get_param_names_spec_witness :
  Estimator._get_param_names Estimator.cls_ex = Estimator.Ok ["max_iter"; "reg"]
  ∧ Sorted String.le ["max_iter"; "reg"]
  ∧ ["max_iter"; "reg"]
    ≡ₚ Estimator.p_name
         <$> filter (λ p, Estimator.is_model_param p = true) Estimator.sig_ex
  ∧ ∀ n, n ∈ ["max_iter"; "reg"] ↔
      ∃ p, p ∈ Estimator.sig_ex ∧ Estimator.p_name p = n ∧ n ≠ "self"
           ∧ Estimator.p_kind p ≠ Estimator.VAR_KEYWORD.
Proof.
  assert (Estimator._get_param_names Estimator.cls_ex
          = Estimator.Ok ["max_iter"; "reg"]) as Hn by (vm_compute; reflexivity).
  split; [exact Hn|].
  exact (proj2 (get_param_names_spec "Transport" "__init__" None
                  Estimator.sig_ex None) ["max_iter"; "reg"] Hn).
Defined.

Lemma deprecated_class_param_names_witness :
  Estimator._get_param_names
    (Estimator._decorate_class "use Transport2" None Estimator.cls_ex)
  = Estimator._get_param_names Estimator.cls_ex
  ∧ Estimator._get_param_names
      (Estimator._decorate_class "again" None
         (Estimator._decorate_class "use Transport2" None Estimator.cls_ex))
    = Estimator.Raise Estimator.RuntimeError.
Proof.
  split.
  - exact (proj1 (deprecated_class_param_names "use Transport2" "again" None
                    Estimator.cls_ex) I).
  - exact (proj2 (deprecated_class_param_names "use Transport2" "again" None
                    Estimator.cls_ex)).
Defined.

Lemma get_params_shallow_witness :
  Estimator.h_ex !! 0 = Some Estimator.o_ex
  ∧ ∃ out, Estimator.get_params 1 Estimator.h_ex 0 false = Estimator.Ok out
         ∧ ∀ k, out !! k = if decide (k ∈ ["max_iter"; "reg"])
                           then Estimator.read_param Estimator.o_ex k
                           else None.
Proof.
  split; [reflexivity|].
  exact (proj1 (get_params_shallow 0 Estimator.h_ex 0 Estimator.o_ex eq_refl)
           ["max_iter"; "reg"] eq_refl).
Defined.

Lemma reg_in_names_ex : "reg" ∈ ["max_iter"; "reg"].
Proof. set_solver. Qed.

(** [set_params(reg=9)] on the instance. *)
Lemma set_params_get_params_witness :
  Estimator.h_ex !! 0 = Some Estimator.o_ex
  ∧ Estimator._get_param_names (Estimator.o_class Estimator.o_ex)
    = Estimator.Ok ["max_iter"; "reg"]
  ∧ Estimator.get_params 1 Estimator.h_ex 0 true
    = Estimator.Ok Estimator.valid_ex
  ∧ "reg" ∈ ["max_iter"; "reg"]
  ∧ is_Some (Estimator.read_param Estimator.o_ex "reg")
  ∧ Estimator.split_dunder "reg" = None
  ∧ Estimator.set_params 2 Estimator.h_ex 0 [("reg", Estimator.VAtom 9%Z)]
    = (Estimator.setattr Estimator.h_ex 0 "reg" (Estimator.VAtom 9%Z),
       Estimator.Ok (Estimator.VRef 0))
  ∧ ∃ out,
      Estimator.get_params 1
        (Estimator.setattr Estimator.h_ex 0 "reg" (Estimator.VAtom 9%Z)) 0 false
      = Estimator.Ok out
      ∧ out !! "reg" = Some (Estimator.VAtom 9%Z)
      ∧ ∀ out0 k,
          Estimator.get_params 1 Estimator.h_ex 0 false = Estimator.Ok out0 →
          k ≠ "reg" → out !! k = out0 !! k.
Proof.
  assert (is_Some (Estimator.read_param Estimator.o_ex "reg")) as Hread
    by (exists (Estimator.VAtom 7%Z); reflexivity).
  split; [reflexivity|]. split; [reflexivity|]. split; [reflexivity|].
  split; [exact reg_in_names_ex|]. split; [exact Hread|].
  split; [reflexivity|].
  exact (set_params_get_params 1 0 Estimator.h_ex 0 Estimator.o_ex
           ["max_iter"; "reg"] Estimator.valid_ex "reg" (Estimator.VAtom 9%Z)
           eq_refl eq_refl eq_refl reg_in_names_ex Hread eq_refl).
Defined.

Lemma done_ex_valid :
  Forall (λ kv : string * @Estimator.val Z,
            Estimator.split_dunder kv.1 = None
            ∧ is_Some (Estimator.valid_ex !! kv.1))
    [("reg", Estimator.VAtom 9%Z)].
Proof.
  constructor; [|constructor]. split; [reflexivity|].
  exists (Estimator.VAtom 7%Z). reflexivity.
Qed.

(** [set_params(reg=9, tol=1, max_iter=3)] sets [reg] and raises. *)
Lemma set_params_invalid_key_witness :
  Estimator.get_params 1 Estimator.h_ex 0 true = Estimator.Ok Estimator.valid_ex
  ∧ Forall (λ kv : string * @Estimator.val Z,
              Estimator.split_dunder kv.1 = None
              ∧ is_Some (Estimator.valid_ex !! kv.1))
      [("reg", Estimator.VAtom 9%Z)]
  ∧ Estimator.split_dunder "tol" = None
  ∧ Estimator.valid_ex !! "tol" = None
  ∧ Estimator.set_params 2 Estimator.h_ex 0
      ([("reg", Estimator.VAtom 9%Z)]
       ++ ("tol", Estimator.VAtom 1%Z) :: [("max_iter", Estimator.VAtom 3%Z)])
    = (Estimator.setattrs Estimator.h_ex 0 [("reg", Estimator.VAtom 9%Z)],
       Estimator.Raise Estimator.ValueError).
Proof.
  split; [reflexivity|]. split; [exact done_ex_valid|].
  split; [reflexivity|]. split; [reflexivity|].
  exact (set_params_invalid_key 1 Estimator.h_ex 0 Estimator.valid_ex
           [("reg", Estimator.VAtom 9%Z)] "tol" (Estimator.VAtom 1%Z)
           [("max_iter", Estimator.VAtom 3%Z)]
           eq_refl done_ex_valid eq_refl eq_refl).
Defined.

(** [set_params(step__reg=9)] on the pipeline sets [reg] on its step. *)
Lemma set_params_nested_witness :
  Estimator.get_params 2 Estimator.h2_ex 1 true = Estimator.Ok Estimator.valid2_ex
  ∧ Estimator.contains "__" ("step" +:+ "_") = false
  ∧ Estimator.valid2_ex !! "step" = Some (Estimator.VRef 0)
  ∧ is_Some (Estimator.h2_ex !! 0)
  ∧ Estimator.get_params 1 Estimator.h2_ex 0 true
    = Estimator.Ok Estimator.valid_ex
  ∧ Estimator.split_dunder "reg" = None
  ∧ is_Some (Estimator.valid_ex !! "reg")
  ∧ ∃ h', Estimator.set_params 3 Estimator.h2_ex 1
            [("step__reg", Estimator.VAtom 9%Z)]
          = (h', Estimator.Ok (Estimator.VRef 1))
        ∧ h' = Estimator.setattr Estimator.h2_ex 0 "reg" (Estimator.VAtom 9%Z)
        ∧ ∀ l0, l0 ≠ 0 → h' !! l0 = Estimator.h2_ex !! l0.
Proof.
  assert (is_Some (Estimator.h2_ex !! 0)) as Hstep
    by (exists Estimator.o_ex; reflexivity).
  assert (is_Some (Estimator.valid_ex !! "reg")) as Hreg
    by (exists (Estimator.VAtom 7%Z); reflexivity).
  split; [reflexivity|]. split; [reflexivity|]. split; [reflexivity|].
  split; [exact Hstep|]. split; [reflexivity|]. split; [reflexivity|].
  split; [exact Hreg|].
  exact (proj2 (set_params_nested 1 Estimator.h2_ex 1 Estimator.valid2_ex
                  "step" "reg" (Estimator.VAtom 9%Z) eq_refl eq_refl)
           0 Estimator.valid_ex eq_refl Hstep eq_refl eq_refl Hreg).
Defined.

(** The pipeline: [step] alone, and [step] with the parameters of the
    step. *)
Lemma get_params_deep_extends_witness :
  Estimator.get_params 2 Estimator.h2_ex 1 true = Estimator.Ok Estimator.valid2_ex
  ∧ Estimator.get_params 1 Estimator.h2_ex 1 false
    = Estimator.Ok {[ "step" := Estimator.VRef 0 ]}
  ∧ ({[ "step" := Estimator.VRef 0 ]} : gmap string (@Estimator.val Z))
    ⊆ Estimator.valid2_ex.
Proof.
  split; [reflexivity|]. split; [reflexivity|].
  exact (get_params_deep_extends 2 1 Estimator.h2_ex 1 Estimator.valid2_ex
           {[ "step" := Estimator.VRef 0 ]} eq_refl eq_refl).
Defined.
